(** * dxip: extraction of Telecom proxy addresses from an HTML status page

    A shallow embedding of [src/dxip.py] ([_parse_speed_to_mbps] and
    [extract_telecom_ips]) together with the parts of the Python runtime
    the two functions rely on: [str] methods, the two regular expressions
    of the [re] module, and the tree queries of BeautifulSoup.

    Conventions.
    - A Python [str] is a list of Unicode code points.
    - An exception is a [Raise] result; every operation that can raise in
      Python returns a [result].
    - A [float] is an exact rational: speeds are compared and converted
      under exact arithmetic.
    - The classification of the code points above 127 (decimal digit,
      white space, alphanumeric) and their case mappings belong to the
      Unicode tables of the interpreter; they are a parameter of the
      development ([Unicode]), so every statement holds whatever the tables
      say.  The ASCII range is written out. *)

From Stdlib Require Import QArith.
From Stdlib Require Import Ascii String.
From stdpp Require Import base option list sorting gmap.

Local Open Scope N_scope.

(** ** Text *)

Abbreviation char := N (only parsing).
Abbreviation str := (list N) (only parsing).

(** [py "abc"] is the Python literal ["abc"] (ASCII literals only). *)
Definition py (s : string) : str :=
  (fun a => N_of_ascii a) <$> list_ascii_of_string s.

(** The non-ASCII literals of the source. *)
Definition telecom_marker : str := [30005; 20449].          (* 电信 *)
Definition unknown_label : str := [26410; 30693].           (* 未知 *)
Definition kw_address : str := [22320; 22336].              (* 地址 *)
Definition kw_line : str := [32447; 36335].                 (* 线路 *)
Definition kw_operator : str := [36816; 33829; 21830].      (* 运营商 *)
Definition kw_speed : str := [36895; 24230].                (* 速度 *)

(** General category of a code point, as far as [re] and [str] look at it.
    The classes are disjoint in the Unicode tables: a decimal digit is
    alphanumeric and no white space, white space is not alphanumeric. *)
Inductive ucat :=
| Decimal (v : N)    (* decimal digit with its value: matches \d, is a word character *)
| Whitespace         (* str.isspace(): matches \s, stripped by str.strip() *)
| Alnum              (* letter or other numeric: a word character *)
| Other.

(** The tables of the interpreter for the code points above 127. *)
Class Unicode := {
  (** general category of a non-ASCII code point *)
  category : N -> ucat;
  (** what [str.lower()] puts for a non-ASCII code point, given the code
      points before it (nearest first) and after it *)
  lower_in : list N -> N -> list N -> list N;
  (** under [re.IGNORECASE], whether a non-ASCII code point matches the
      ASCII letter given in lower case *)
  fold_matches : N -> N -> bool
}.

Definition is_ascii (c : char) : bool := c <? 128.

Definition ascii_upper (c : char) : bool := (65 <=? c) && (c <=? 90).
Definition ascii_lower (c : char) : bool := (97 <=? c) && (c <=? 122).
Definition ascii_digit (c : char) : bool := (48 <=? c) && (c <=? 57).
Definition ascii_letter (c : char) : bool := ascii_upper c || ascii_lower c.

(** \t \n \v \f \r, the four separators 0x1c..0x1f and the blank *)
Definition ascii_space (c : char) : bool :=
  ((9 <=? c) && (c <=? 13)) || ((28 <=? c) && (c <=? 32)).

Definition ascii_tolower (c : char) : char :=
  if ascii_upper c then c + 32 else c.

Section Text.
Context {U : Unicode}.

(** Value of a decimal digit: what [\d] matches and what [int] and [float]
    read. *)
Definition decimal_value (c : char) : option N :=
  if is_ascii c then (if ascii_digit c then Some (c - 48) else None)
  else match category c with Decimal v => Some v | _ => None end.

Definition isdecimal (c : char) : bool :=
  match decimal_value c with Some _ => true | None => false end.

Definition isspace (c : char) : bool :=
  if is_ascii c then ascii_space c
  else match category c with Whitespace => true | _ => false end.

Definition isalnum (c : char) : bool :=
  if is_ascii c then ascii_digit c || ascii_letter c
  else match category c with Decimal _ | Alnum => true | _ => false end.

(** [\w] *)
Definition is_word (c : char) : bool := isalnum c || (c =? 95).

(** [s.lower()] *)
Fixpoint lower_from (before : list N) (s : str) : str :=
  match s with
  | [] => []
  | c :: s' =>
      (if is_ascii c then [ascii_tolower c] else lower_in before c s')
        ++ lower_from (c :: before) s'
  end.

Definition lower (s : str) : str := lower_from [] s.

(** [s.strip()] *)
Fixpoint lstrip (s : str) : str :=
  match s with
  | [] => []
  | c :: s' => if isspace c then lstrip s' else s
  end.

Definition rstrip (s : str) : str := reverse (lstrip (reverse s)).
Definition strip (s : str) : str := rstrip (lstrip s).

End Text.

(** [s.startswith(p)] *)
Fixpoint startswith (p s : str) : bool :=
  match p, s with
  | [], _ => true
  | _ :: _, [] => false
  | a :: p', b :: s' => (a =? b) && startswith p' s'
  end.

(** [needle in hay] *)
Fixpoint contains (needle hay : str) : bool :=
  startswith needle hay ||
  match hay with
  | [] => false
  | _ :: hay' => contains needle hay'
  end.

(** [sep.join(parts)] *)
Fixpoint join (sep : str) (parts : list str) : str :=
  match parts with
  | [] => []
  | [p] => p
  | p :: ps => p ++ sep ++ join sep ps
  end.

(** [s.split(c)] for a separator of one character *)
Fixpoint split_on (c : char) (s : str) : list str :=
  match s with
  | [] => [[]]
  | x :: s' =>
      if x =? c then [] :: split_on c s'
      else match split_on c s' with
           | [] => [[x]]
           | w :: ws => (x :: w) :: ws
           end
  end.

(** ** Exceptions *)

Inductive exn := IndexError | ValueError | TypeError.

Inductive result (A : Type) :=
| Ok (a : A)
| Raise (e : exn).
Arguments Ok {A} a.
Arguments Raise {A} e.

Definition rbind {A B} (r : result A) (f : A -> result B) : result B :=
  match r with
  | Ok a => f a
  | Raise e => Raise e
  end.

(** [l[i]] for a non-negative index *)
Definition index {A} (l : list A) (i : nat) : result A :=
  match l !! i with
  | Some a => Ok a
  | None => Raise IndexError
  end.

#[export] Instance result_ret : MRet result := @Ok.
#[export] Instance result_bind : MBind result := fun A B f r => rbind r f.

(** ** Regular expressions

    The fragment of [re] syntax the two patterns of the program use, and a
    backtracking matcher for it: alternatives are tried left to right,
    repetitions are greedy, and the first way to reach the end of the
    pattern wins. *)

Inductive cclass :=
| ClsDigit     (* \d *)
| ClsSpace.    (* \s *)

Inductive regex :=
| Eps
| Lit (c : char)                    (* a literal character *)
| Cls (k : cclass)                  (* \d, \s *)
| WordB                             (* \b *)
| Seq (r1 r2 : regex)               (* r1 r2 *)
| Alt (r1 r2 : regex)               (* r1|r2 *)
| Many (k : cclass) (lo : nat)      (* k* (lo = 0), k+ (lo = 1) *)
| Rep (r : regex) (lo hi : nat)     (* (?:r){lo,hi}, and (?:r)? as {0,1} *)
| Group (i : nat) (r : regex).      (* (r), the i-th capturing group *)

(** The literal string [s] as a pattern. *)
Fixpoint lits (s : str) : regex :=
  match s with
  | [] => Eps
  | c :: s' => Seq (Lit c) (lits s')
  end.

(** A position in the scanned text: the character before it, its offset,
    and the text from there on. *)
Record cursor := Cursor { prev : option char; pos : nat; rest : str }.

Definition start_of (text : str) : cursor := Cursor None 0 text.

Definition next (cur : cursor) : option (char * cursor) :=
  match rest cur with
  | [] => None
  | c :: s => Some (c, Cursor (Some c) (S (pos cur)) s)
  end.

(** Captured groups, most recent first. *)
Abbreviation caps := (list (nat * list N)) (only parsing).

Record rmatch := Match {
  m_start : nat;
  m_end : nat;
  m_text : str;           (* m.group(0) *)
  m_caps : caps
}.

(** [m.group(i)] for i >= 1; [None] when the group took no part. *)
Fixpoint group_in (cs : caps) (i : nat) : option str :=
  match cs with
  | [] => None
  | (j, w) :: cs' => if (i =? j)%nat then Some w else group_in cs' i
  end.

Definition group (m : rmatch) (i : nat) : option str := group_in (m_caps m) i.

Section Regex.
Context {U : Unicode}.

Definition in_class (k : cclass) (c : char) : bool :=
  match k with
  | ClsDigit => isdecimal c
  | ClsSpace => isspace c
  end.

(** Whether the text character [x] matches the pattern literal [l].  The
    literals of the program's patterns are ASCII; with [re.IGNORECASE]
    ([ic]) a letter matches every character with the same lower case. *)
Definition lit_matches (ic : bool) (l x : char) : bool :=
  if ic && ascii_letter l then
    if is_ascii x then ascii_tolower x =? ascii_tolower l
    else fold_matches x (ascii_tolower l)
  else x =? l.

Definition word_at (o : option char) : bool :=
  match o with
  | Some c => is_word c
  | None => false
  end.

(** [\b]: exactly one side of the position is a word character. *)
Definition at_boundary (cur : cursor) : bool :=
  xorb (word_at (prev cur)) (word_at (head (rest cur))).

(** Greedy repetition of a character class: take as many as there are,
    give back one at a time while the rest of the pattern fails. *)
Fixpoint many {A} (ok : char -> bool) (lo : nat) (k : cursor -> option A)
    (count : nat) (p : option char) (n : nat) (s : str) : option A :=
  let here := if (lo <=? count)%nat then k (Cursor p n s) else None in
  match s with
  | c :: s' =>
      if ok c then
        match many ok lo k (S count) (Some c) (S n) s' with
        | Some a => Some a
        | None => here
        end
      else here
  | [] => here
  end.

(** [bt ic r k cur cs]: match [r] at [cur], then continue with [k]. *)
Fixpoint bt {A} (ic : bool) (r : regex) (k : cursor -> caps -> option A)
    (cur : cursor) (cs : caps) : option A :=
  match r with
  | Eps => k cur cs
  | Lit l =>
      match next cur with
      | Some (x, cur') => if lit_matches ic l x then k cur' cs else None
      | None => None
      end
  | Cls c =>
      match next cur with
      | Some (x, cur') => if in_class c x then k cur' cs else None
      | None => None
      end
  | WordB => if at_boundary cur then k cur cs else None
  | Seq r1 r2 => bt ic r1 (bt ic r2 k) cur cs
  | Alt r1 r2 =>
      match bt ic r1 k cur cs with
      | Some a => Some a
      | None => bt ic r2 k cur cs
      end
  | Many c lo =>
      many (in_class c) lo (fun cur' => k cur' cs) 0 (prev cur) (pos cur) (rest cur)
  | Rep r' lo hi =>
      (fix loop (budget done : nat) (cur : cursor) (cs : caps) {struct budget} : option A :=
         let stop := if (lo <=? done)%nat then k cur cs else None in
         match budget with
         | O => stop
         | S b =>
             match bt ic r' (loop b (S done)) cur cs with
             | Some a => Some a
             | None => stop
             end
         end) hi 0%nat cur cs
  | Group i r' =>
      bt ic r' (fun cur' cs' =>
                  k cur' ((i, take (pos cur' - pos cur) (rest cur)) :: cs')) cur cs
  end.

(** [pattern.match] at one position. *)
Definition match_at (ic : bool) (r : regex) (cur : cursor) : option rmatch :=
  bt ic r (fun cur' cs =>
             Some (Match (pos cur) (pos cur')
                         (take (pos cur' - pos cur) (rest cur)) cs)) cur [].

(** [pattern.search]: the match at the leftmost position that has one. *)
Fixpoint search_from (ic : bool) (r : regex) (p : option char) (n : nat) (s : str)
    : option rmatch :=
  match match_at ic r (Cursor p n s) with
  | Some m => Some m
  | None =>
      match s with
      | [] => None
      | c :: s' => search_from ic r (Some c) (S n) s'
      end
  end.

Definition re_search (ic : bool) (r : regex) (text : str) : option rmatch :=
  search_from ic r None 0 text.

(** [pattern.finditer]: the non-overlapping matches, left to right.
    [skip] counts the characters still covered by the match found last. *)
Fixpoint finditer_from (ic : bool) (r : regex) (skip : nat)
    (p : option char) (n : nat) (s : str) {struct s} : list rmatch :=
  match skip with
  | S skip' =>
      match s with
      | [] => []
      | c :: s' => finditer_from ic r skip' (Some c) (S n) s'
      end
  | O =>
      match match_at ic r (Cursor p n s) with
      | Some m =>
          m ::
          match s with
          | [] => []
          | c :: s' => finditer_from ic r (m_end m - m_start m - 1) (Some c) (S n) s'
          end
      | None =>
          match s with
          | [] => []
          | c :: s' => finditer_from ic r 0 (Some c) (S n) s'
          end
      end
  end.

Definition re_finditer (ic : bool) (r : regex) (text : str) : list rmatch :=
  finditer_from ic r 0 None 0 text.

(** [pattern.findall] for a pattern without groups: the texts of the
    matches of [finditer]. *)
Definition re_findall (ic : bool) (r : regex) (text : str) : list str :=
  m_text <$> re_finditer ic r text.

End Regex.

(** ** The two patterns of the program *)

(** [(\d+(?:\.\d+)?)\s*(GB/s|MB/s|KB/s|Gbps|Mbps|Kbps)], used with
    [re.IGNORECASE] *)
Definition speed_regex : regex :=
  Seq (Group 1 (Seq (Many ClsDigit 1)
                    (Rep (Seq (Lit 46) (Many ClsDigit 1)) 0 1)))
 (Seq (Many ClsSpace 0)
      (Group 2 (Alt (lits (py "GB/s"))
               (Alt (lits (py "MB/s"))
               (Alt (lits (py "KB/s"))
               (Alt (lits (py "Gbps"))
               (Alt (lits (py "Mbps"))
                    (lits (py "Kbps"))))))))).

(** [\b(?:\d{1,3}\.){3}\d{1,3}\b] *)
Definition octet_regex : regex := Rep (Cls ClsDigit) 1 3.

Definition ip_regex : regex :=
  Seq WordB
 (Seq (Rep (Seq octet_regex (Lit 46)) 3 3)
 (Seq octet_regex
      WordB)).

(** ** Numbers *)

Section Numbers.
Context {U : Unicode}.

(** Value of a run of decimal digits, most significant first. *)
Fixpoint digits_from (acc : N) (s : str) : option N :=
  match s with
  | [] => Some acc
  | c :: s' =>
      match decimal_value c with
      | Some v => digits_from (acc * 10 + v) s'
      | None => None
      end
  end.

Definition digits_value (s : str) : option N :=
  match s with
  | [] => None
  | _ :: _ => digits_from 0 s
  end.

(** [int(s)] on a non-empty run of decimal digits.  CPython also accepts
    surrounding blanks, a sign and underscores between digits; no such
    string reaches [int] in this program, and they are left with the
    strings that raise. *)
Definition py_int (s : str) : result Z :=
  match digits_value s with
  | Some n => Ok (Z.of_N n)
  | None => Raise ValueError
  end.

(** [float(s)] on [digits] or [digits.digits], as an exact rational.  The
    other spellings CPython accepts (sign, exponent, inf, nan) cannot come
    out of the first group of [speed_regex]; they are left with the strings
    that raise. *)
Definition py_float (s : str) : result Q :=
  match split_on 46 s with
  | [i] =>
      match digits_value i with
      | Some a => Ok (Z.of_N a # 1)
      | None => Raise ValueError
      end
  | [i; f] =>
      match digits_value i, digits_value f with
      | Some a, Some b =>
          Ok ((Z.of_N a # 1) + (Z.of_N b # Pos.pow 10 (Pos.of_nat (length f))))%Q
      | _, _ => Raise ValueError
      end
  | _ => Raise ValueError
  end.

(** ** [_parse_speed_to_mbps] *)

Definition _parse_speed_to_mbps (speed_text : str) : result (option (Q * str)) :=
  match re_search true speed_regex speed_text with
  | None => Ok None
  | Some m =>
      match group m 1, group m 2 with
      | Some g1, Some g2 =>
          value ← py_float g1;
          let unit := lower g2 in
          let display := g1 ++ py " " ++ g2 in
          if decide (unit = py "gb/s") then Ok (Some (value * (8#1) * (1000#1), display)%Q)
          else if decide (unit = py "mb/s") then Ok (Some (value * (8#1), display)%Q)
          else if decide (unit = py "kb/s") then Ok (Some (value * (8#1) / (1000#1), display)%Q)
          else if decide (unit = py "gbps") then Ok (Some (value * (1000#1), display)%Q)
          else if decide (unit = py "mbps") then Ok (Some (value, display))
          else if decide (unit = py "kbps") then Ok (Some (value / (1000#1), display)%Q)
          else Ok None
      | _, _ => Raise TypeError
      end
  end.

End Numbers.

(** ** The parsed document

    [BeautifulSoup(html, "html.parser")] is a tree of tags and strings.
    Strings that [get_text] leaves out (comments, declarations, the
    contents of script and style) take no part in any query below and are
    not kept in the tree. *)

#[warnings="-register-all"]
Inductive node :=
| Text (s : str)                          (* NavigableString *)
| Elem (name : str) (children : list node).  (* Tag *)

(** [tag.descendants]: everything below a tag, in document order. *)
Fixpoint descendants (n : node) : list node :=
  match n with
  | Text _ => []
  | Elem _ kids =>
      (fix below (l : list node) : list node :=
         match l with
         | [] => []
         | k :: l' => k :: descendants k ++ below l'
         end) kids
  end.

Definition has_name (names : list str) (n : node) : bool :=
  match n with
  | Text _ => false
  | Elem name _ => bool_decide (name ∈ names)
  end.

(** [tag.find_all(names)] *)
Definition find_all (names : list str) (n : node) : list node :=
  filter (fun d => has_name names d = true) (descendants n).

(** [tag.find(name)] *)
Definition find (name : str) (n : node) : option node :=
  head (find_all [name] n).

Definition string_of (n : node) : option str :=
  match n with
  | Text s => Some s
  | Elem _ _ => None
  end.

Definition nonempty {A} (s : list A) : bool :=
  match s with
  | [] => false
  | _ :: _ => true
  end.

Section Soup.
Context {U : Unicode}.

(** [tag.get_text(sep, strip=True)]: the strings below the tag, each
    stripped, the empty ones dropped, joined by [sep]. *)
Definition get_text (sep : str) (n : node) : str :=
  join sep (filter (fun s => nonempty s = true)
                   (strip <$> omap string_of (descendants n))).

End Soup.

Definition th_td : list str := [py "th"; py "td"].
Definition td_th : list str := [py "td"; py "th"].

(** [cells or None] *)
Definition or_none {A} (l : list A) : option (list A) :=
  match l with
  | [] => None
  | _ :: _ => Some l
  end.

(** ** [extract_telecom_ips] *)

(** One element of the returned list: [(ip, mbps_value, display_speed)]. *)
Record entry := Entry { address : str; mbps : Q; display : str }.

(** The three local variables [ip_col], [provider_col], [speed_col]. *)
Record columns := Columns {
  ip_col : option nat;
  provider_col : option nat;
  speed_col : option nat
}.

(** The two accumulators of the function. *)
Record state := State { seen_ips : gset (list N); results : list entry }.

(** Statements of the function body: they read and update the accumulators
    and may raise. *)
Definition M (A : Type) : Type := state -> result (A * state).

Definition ret {A} (a : A) : M A := fun st => Ok (a, st).

Definition bind {A B} (m : M A) (f : A -> M B) : M B :=
  fun st =>
    match m st with
    | Ok (a, st') => f a st'
    | Raise e => Raise e
    end.

(** A pure computation that may raise, as a statement. *)
Definition lift {A} (r : result A) : M A :=
  fun st =>
    match r with
    | Ok a => Ok (a, st)
    | Raise e => Raise e
    end.

Declare Scope stmt_scope.
Delimit Scope stmt_scope with stmt.
Notation "'let!' x ':=' m 'in' k" := (bind m (fun x => k))
  (at level 10, x pattern, m at level 100, k at level 200) : stmt_scope.

(** [continue]: the rest of the loop body is not run. *)
Definition skip : M unit := ret tt.

(** [for x in l: body] *)
Fixpoint for_each {A} (l : list A) (body : A -> M unit) : M unit :=
  match l with
  | [] => ret tt
  | x :: l' => bind (body x) (fun _ => for_each l' body)
  end.

(** [results.sort(key=lambda x: x[1], reverse=True)]: a stable sort on
    the key, largest first (elements with equal keys keep their order).
    Written as an insertion sort. *)
Definition key_lt (a b : entry) : bool := negb (Qle_bool (mbps b) (mbps a)).

Fixpoint insert_desc (x : entry) (l : list entry) : list entry :=
  match l with
  | [] => [x]
  | y :: l' => if key_lt x y then y :: insert_desc x l' else x :: l
  end.

Definition sort_reverse (l : list entry) : list entry := foldr insert_desc [] l.

Section Extract.
Context {U : Unicode}.
Local Open Scope stmt_scope.

(** Lines 74-84: one round of the loop over [enumerate(headers_text)]. *)
Definition classify (cols : columns) (idx : nat) (text : str) : columns :=
  let lower := lower text in
  let ip_col :=
    if bool_decide (ip_col cols = None)
       && (contains (py "ip") lower || contains kw_address text)
    then Some idx else ip_col cols in
  let provider_col :=
    if bool_decide (provider_col cols = None)
       && (contains kw_line text || contains kw_operator text
           || contains (py "isp") lower)
    then Some idx else provider_col cols in
  let speed_col :=
    if bool_decide (speed_col cols = None)
       && (contains kw_speed text || contains (py "speed") lower)
    then Some idx else speed_col cols in
  Columns ip_col provider_col speed_col.

Fixpoint classify_from (cols : columns) (idx : nat) (headers_text : list str) : columns :=
  match headers_text with
  | [] => cols
  | text :: more => classify_from (classify cols idx text) (S idx) more
  end.

(** Lines 59-69: the header cells of a table, or [None]. *)
Definition header_cells_of (table : node) : option (list node) :=
  let header_cells :=
    match find (py "thead") table with
    | Some thead =>
        match find (py "tr") thead with
        | Some header_row => or_none (find_all th_td header_row)
        | None => None
        end
    | None => None
    end in
  match header_cells with
  | Some cells => Some cells
  | None =>
      match find (py "tr") table with
      | Some first_tr =>
          match find (py "th") first_tr with
          | Some _ => or_none (find_all th_td first_tr)
          | None => None
          end
      | None => None
      end
  end.

(** Lines 71-84 *)
Definition columns_of (header_cells : option (list node)) : columns :=
  match header_cells with
  | Some cells => classify_from (Columns None None None) 0 (get_text [] <$> cells)
  | None => Columns None None None
  end.

(** Lines 87-97 *)
Definition body_rows_of (table : node) (header_cells : option (list node)) : list node :=
  match find (py "tbody") table with
  | Some tbody => find_all [py "tr"] tbody
  | None =>
      let all_trs := find_all [py "tr"] table in
      match header_cells, all_trs with
      | Some _, _ :: _ => drop 1 all_trs
      | _, _ => all_trs
      end
  end.

(** [all(0 <= int(o) <= 255 for o in octets)]: stops at the first octet
    out of range. *)
Fixpoint octets_in_range (octets : list str) : result bool :=
  match octets with
  | [] => Ok true
  | o :: more =>
      v ← py_int o;
      if ((0 <=? v)%Z && (v <=? 255)%Z) then octets_in_range more else Ok false
  end.

(** Lines 125-127 and 150-152 *)
Definition record_ip (ip : str) (mbps_value : Q) (display_speed : str) : M unit :=
  fun st =>
    if bool_decide (ip ∈ seen_ips st) then Ok (tt, st)
    else Ok (tt, State ({[ip]} ∪ seen_ips st)
                       (results st ++ [Entry ip mbps_value display_speed])).

(** Line 103: [not tds or len(tds) <= max(ip_col, provider_col, speed_col)] *)
Definition too_narrow (ip_col provider_col speed_col : nat) (tds : list node) : bool :=
  negb (nonempty tds)
  || (length tds <=? Nat.max ip_col (Nat.max provider_col speed_col))%nat.

(** Lines 102-127: the body of the loop of the column mode. *)
Definition column_row (ip_col provider_col speed_col : nat) (tr : node) : M unit :=
  let tds := find_all td_th tr in
  if too_narrow ip_col provider_col speed_col tds then skip
  else
    let! provider_cell := lift (index tds provider_col) in
    let provider_text := get_text [] provider_cell in
    if negb (contains telecom_marker provider_text) then skip
    else
      let! ip_cell := lift (index tds ip_col) in
      let ip_text := get_text (py " ") ip_cell in
      match re_search false ip_regex ip_text with
      | None => skip
      | Some m =>
          let ip := m_text m in
          let octets := split_on 46 ip in
          let! valid := lift (octets_in_range octets) in
          if negb valid then skip
          else
            let! speed_cell := lift (index tds speed_col) in
            let speed_text := get_text (py " ") speed_cell in
            let! parsed := lift (_parse_speed_to_mbps speed_text) in
            let '(mbps_value, display_speed) :=
              match parsed with
              | Some p => p
              | None => (0%Q, if nonempty speed_text then speed_text else unknown_label)
              end in
            record_ip ip mbps_value display_speed
      end.

(** Lines 132-152: the body of the loop of the fallback mode. *)
Definition fallback_row (tr : node) : M unit :=
  let cells := find_all td_th tr in
  if negb (nonempty cells) then skip
  else
    let texts := get_text [] <$> cells in
    let row_text := join (py " ") texts in
    if negb (contains telecom_marker row_text) then skip
    else
      let! speed_parsed := lift (_parse_speed_to_mbps row_text) in
      let '(mbps_value, display_speed) :=
        match speed_parsed with
        | Some p => p
        | None => (0%Q, unknown_label)
        end in
      for_each (re_findall false ip_regex row_text) (fun match_ =>
        let octets := split_on 46 match_ in
        let! valid := lift (octets_in_range octets) in
        if valid then record_ip match_ mbps_value display_speed else skip).

(** Lines 58-152: the body of the loop over the tables. *)
Definition scan_table (table : node) : M unit :=
  let header_cells := header_cells_of table in
  let cols := columns_of header_cells in
  let body_rows := body_rows_of table header_cells in
  match ip_col cols, provider_col cols, speed_col cols with
  | Some i, Some p, Some s => for_each body_rows (column_row i p s)
  | _, _, _ => for_each body_rows fallback_row
  end.

(** The function, on the parsed document. *)
Definition extract_telecom_ips (soup : node) : result (list entry) :=
  let tables := find_all [py "table"] soup in
  match for_each tables scan_table (State ∅ []) with
  | Ok (_, st) => Ok (sort_reverse (results st))
  | Raise e => Raise e
  end.

End Extract.

(** A table that agrees with CPython on the code points the examples below
    use: the CJK unified ideographs (U+4E00..U+9FFF) are letters without
    case, the ideographic space U+3000 is white space, the Arabic-Indic
    digits U+0660..U+0669 are decimal digits, U+017F (long s) and U+212A
    (Kelvin sign) fold to s and k. *)
Definition sample_tables : Unicode := {|
  category c :=
    if (19968 <=? c) && (c <=? 40959) then Alnum
    else if c =? 12288 then Whitespace
    else if (1632 <=? c) && (c <=? 1641) then Decimal (c - 1632)
    else if (c =? 383) || (c =? 8490) then Alnum
    else Other;
  lower_in _ c _ := if c =? 8490 then [107] else [c];
  fold_matches c l := ((c =? 383) && (l =? 115)) || ((c =? 8490) && (l =? 107))
|}.

(** ** What a pattern matches

    The matcher above is the program; this is what it is checked against:
    [matches ic r cur cs cur' cs'] says that [r] can take the scan from
    position [cur] with captures [cs] to position [cur'] with captures
    [cs']. *)

(** The scan moves from [cur] to [cur'] by reading [w]. *)
Definition reads (w : str) (cur cur' : cursor) : Prop :=
  rest cur = w ++ rest cur'
  ∧ pos cur' = (pos cur + length w)%nat
  ∧ prev cur' = match last w with Some c => Some c | None => prev cur end.

(** The position between [before] and [after] in the text
    [before ++ after]. *)
Definition cursor_at (before after : str) : cursor :=
  Cursor (last before) (length before) after.

Fixpoint iter (R : cursor -> caps -> cursor -> caps -> Prop) (n : nat)
    (cur : cursor) (cs : caps) (cur' : cursor) (cs' : caps) : Prop :=
  match n with
  | O => cur' = cur ∧ cs' = cs
  | S n' => ∃ c1 cs1, R cur cs c1 cs1 ∧ iter R n' c1 cs1 cur' cs'
  end.

Section Matches.
Context {U : Unicode}.

Fixpoint matches (ic : bool) (r : regex)
    (cur : cursor) (cs : caps) (cur' : cursor) (cs' : caps) : Prop :=
  match r with
  | Eps => cur' = cur ∧ cs' = cs
  | Lit l => ∃ x, next cur = Some (x, cur') ∧ lit_matches ic l x = true ∧ cs' = cs
  | Cls k => ∃ x, next cur = Some (x, cur') ∧ in_class k x = true ∧ cs' = cs
  | WordB => at_boundary cur = true ∧ cur' = cur ∧ cs' = cs
  | Seq r1 r2 =>
      ∃ c1 cs1, matches ic r1 cur cs c1 cs1 ∧ matches ic r2 c1 cs1 cur' cs'
  | Alt r1 r2 => matches ic r1 cur cs cur' cs' ∨ matches ic r2 cur cs cur' cs'
  | Many k lo =>
      ∃ w, reads w cur cur' ∧ Forall (fun c => in_class k c = true) w
           ∧ (lo ≤ length w)%nat ∧ cs' = cs
  | Rep r' lo hi =>
      ∃ n, (lo ≤ n ≤ hi)%nat ∧ iter (matches ic r') n cur cs cur' cs'
  | Group i r' =>
      ∃ cs1, matches ic r' cur cs cur' cs1
             ∧ cs' = (i, take (pos cur' - pos cur) (rest cur)) :: cs1
  end.

End Matches.

(** ** Shapes of the matched texts *)

Section Shapes.
Context {U : Unicode}.

(** One to three decimal digits. *)
Definition octet_text (w : str) : Prop :=
  Forall (fun c => isdecimal c = true) w ∧ (1 ≤ length w ≤ 3)%nat.

(** The dotted-quad form: four runs of one to three digits, with dots. *)
Definition dotted_quad (w : str) : Prop :=
  ∃ d1 d2 d3 d4,
    w = d1 ++ [46] ++ d2 ++ [46] ++ d3 ++ [46] ++ d4
    ∧ octet_text d1 ∧ octet_text d2 ∧ octet_text d3 ∧ octet_text d4.

(** A non-empty run of decimal digits. *)
Definition digit_run (w : str) : Prop :=
  Forall (fun c => isdecimal c = true) w ∧ w ≠ [].

(** [digits] or [digits.digits] *)
Definition decimal_text (w : str) : Prop :=
  digit_run w ∨ ∃ i f, w = i ++ [46] ++ f ∧ digit_run i ∧ digit_run f.

(** The six unit tokens, as the pattern spells them. *)
Definition unit_names : list str :=
  [py "GB/s"; py "MB/s"; py "KB/s"; py "Gbps"; py "Mbps"; py "Kbps"].

(** A text the pattern accepts for a unit: one of the six tokens, letter
    case ignored. *)
Definition unit_text (u : str) : Prop :=
  ∃ name, name ∈ unit_names
          ∧ Forall2 (fun l x => lit_matches true l x = true) name u.

(** A quantity and unit: a decimal number, optional white space, a unit
    token. *)
Definition speed_expression (w : str) : Prop :=
  ∃ num ws unit,
    w = num ++ ws ++ unit
    ∧ decimal_text num
    ∧ Forall (fun c => isspace c = true) ws
    ∧ unit_text unit.

(** A speed expression starts at offset [n] of [text]. *)
Definition expression_at (text : str) (n : nat) : Prop :=
  ∃ t1 w r, text = t1 ++ w ++ r ∧ length t1 = n ∧ speed_expression w.

End Shapes.




(** ** The candidate stream

    What the loops of [extract_telecom_ips] hand to the deduplication, as
    plain lists: the entries a row yields, those of a table, those of the
    document, in the order the loops meet them. *)

Section Emissions.
Context {U : Unicode}.

(** [0 <= int(o) <= 255] on a run of digits *)
Definition octet_ok (o : str) : bool :=
  match digits_value o with
  | Some n => n <=? 255
  | None => false
  end.

Definition valid_ip (ip : str) : bool := forallb octet_ok (split_on 46 ip).

(** The answer of [_parse_speed_to_mbps], [None] when it has none. *)
Definition speed_of (text : str) : option (Q * str) :=
  match _parse_speed_to_mbps text with
  | Ok (Some p) => Some p
  | _ => None
  end.

(** Column mode: at most one entry per row. *)
Definition column_emits (i p s : nat) (tr : node) : list entry :=
  let tds := find_all td_th tr in
  match tds !! p, tds !! i, tds !! s with
  | Some provider_cell, Some ip_cell, Some speed_cell =>
      if contains telecom_marker (get_text [] provider_cell) then
        match re_search false ip_regex (get_text (py " ") ip_cell) with
        | Some m =>
            if valid_ip (m_text m) then
              let speed_text := get_text (py " ") speed_cell in
              match speed_of speed_text with
              | Some (v, d) => [Entry (m_text m) v d]
              | None =>
                  [Entry (m_text m) 0
                         (if nonempty speed_text then speed_text else unknown_label)]
              end
            else []
        | None => []
        end
      else []
  | _, _, _ => []
  end.

(** Fallback mode: one entry per valid address of the row text, all with
    the speed read from the row text. *)
Definition fallback_emits (tr : node) : list entry :=
  let row_text := join (py " ") (get_text [] <$> find_all td_th tr) in
  if contains telecom_marker row_text then
    let speed := default (0%Q, unknown_label) (speed_of row_text) in
    (fun ip => Entry ip speed.1 speed.2)
      <$> filter (fun ip => valid_ip ip = true) (re_findall false ip_regex row_text)
  else [].

Definition table_emits (table : node) : list entry :=
  let header_cells := header_cells_of table in
  let body_rows := body_rows_of table header_cells in
  let cols := columns_of header_cells in
  match ip_col cols, provider_col cols, speed_col cols with
  | Some i, Some p, Some s => flat_map (column_emits i p s) body_rows
  | _, _, _ => flat_map fallback_emits body_rows
  end.

(** Emission order: tables in document order, rows in row order, addresses
    of a row in the order found. *)
Definition emissions (soup : node) : list entry :=
  flat_map table_emits (find_all [py "table"] soup).

End Emissions.

(** What [record_ip] does to the accumulators. *)
Definition absorb (st : state) (e : entry) : state :=
  if bool_decide (address e ∈ seen_ips st) then st
  else State ({[address e]} ∪ seen_ips st) (results st ++ [e]).

(** First occurrence of every address, in order. *)
Fixpoint keep_first (seen : gset (list N)) (l : list entry) : list entry :=
  match l with
  | [] => []
  | e :: l' =>
      if bool_decide (address e ∈ seen) then keep_first seen l'
      else e :: keep_first ({[address e]} ∪ seen) l'
  end.

(** The accumulated list before it is sorted: the discovery order. *)
Definition discovered {U : Unicode} (soup : node) : list entry :=
  keep_first ∅ (emissions soup).

(** [a] comes before [b] in [l]. *)
Definition precedes {A} (a b : A) (l : list A) : Prop :=
  ∃ i j, (i < j)%nat ∧ l !! i = Some a ∧ l !! j = Some b.

(** Largest key first. *)
Definition key_ge (a b : entry) : Prop := (mbps b <= mbps a)%Q.

(** The entries whose key is [v]. *)
Definition with_key (v : Q) (e : entry) : Prop := Qeq_bool (mbps e) v = true.

#[export] Instance with_key_dec v e : Decision (with_key v e).
Proof. unfold with_key. apply _. Defined.

(** ** The keyword rules of the header roles (specification, section 4.1) *)

Section Rules.
Context {U : Unicode}.

Definition address_rule (text : str) : bool :=
  contains (py "ip") (lower text) || contains kw_address text.

Definition provider_rule (text : str) : bool :=
  contains kw_line text || contains kw_operator text
  || contains (py "isp") (lower text).

Definition speed_rule (text : str) : bool :=
  contains kw_speed text || contains (py "speed") (lower text).

End Rules.

(** Index of the first text a rule accepts, counting from [idx]. *)
Fixpoint first_from (rule : list N -> bool) (idx : nat) (texts : list (list N)) : option nat :=
  match texts with
  | [] => None
  | t :: more => if rule t then Some idx else first_from rule (S idx) more
  end.

(** [col] is the earliest cell the rule accepts, or unset when there is
    none. *)
Definition earliest (rule : list N -> bool) (texts : list (list N)) (col : option nat) : Prop :=
  match col with
  | Some i =>
      (∃ t, texts !! i = Some t ∧ rule t = true)
      ∧ ∀ j t, (j < i)%nat → texts !! j = Some t → rule t = false
  | None => ∀ t, t ∈ texts → rule t = false
  end.

(** A role that is set stays as it is. *)
Definition keeps (before after : option nat) : Prop :=
  ∀ j, before = Some j → after = Some j.

(** ** Sample documents *)

Definition tag (name : string) (kids : list node) : node := Elem (py name) kids.
Definition txt (s : string) : node := Text (py s).

(** A row of three [td] cells. *)
Definition row3 (a b c : node) : node :=
  tag "tr" [tag "td" [a]; tag "td" [b]; tag "td" [c]].

(** The header row [IP地址 | 线路 | 速度]. *)
Definition header3 : node :=
  tag "tr" [tag "th" [Text (py "IP" ++ kw_address)];
          tag "th" [Text kw_line];
          tag "th" [Text kw_speed]].

Definition unicom : str := [32852; 36890].          (* 联通 *)

(** The end-to-end scenario of the specification. *)
Definition doc_columns : node :=
  tag "html" [tag "table" [
    header3;
    row3 (txt "1.2.3.4") (Text telecom_marker) (txt "12.3 MB/s");
    row3 (txt "5.6.7.8") (Text unicom) (txt "20 MB/s");
    row3 (txt "9.10.11.12") (Text telecom_marker) (txt "500 Mbps")]].

(** The fallback scenario: no header, two addresses in one row. *)
Definition doc_fallback : node :=
  tag "html" [tag "table" [
    tag "tr" [tag "td" [Text telecom_marker]; tag "td" [txt "line sample"];
            tag "td" [txt "1.1.1.1 extra 2.2.2.2"]; tag "td" [txt "850 KB/s"]]]].

(** Repeated and malformed addresses, equal speeds. *)
Definition doc_repeats : node :=
  tag "html" [tag "table" [
    header3;
    row3 (txt "1.2.3.4") (Text telecom_marker) (txt "8 Mbps");
    row3 (txt "2.2.2.2") (Text telecom_marker) (txt "1 MB/s");
    row3 (txt "1.2.3.4") (Text telecom_marker) (txt "900 Mbps");
    row3 (txt "1.2.3.400") (Text telecom_marker) (txt "900 Mbps");
    row3 (txt "3.3.3.3") (Text telecom_marker) (txt "1 Gbps")]].

(** A speed cell without a speed expression, in column mode. *)
Definition doc_unknown_column : node :=
  tag "html" [tag "table" [
    header3;
    row3 (txt "7.7.7.7") (Text telecom_marker) (txt "fast")]].

(** The same row under a table without header: fallback mode. *)
Definition doc_unknown_fallback : node :=
  tag "html" [tag "table" [
    row3 (txt "7.7.7.7") (Text telecom_marker) (txt "fast")]].

(** A row of the other provider. *)
Definition row_unicom : node :=
  row3 (txt "5.6.7.8") (Text unicom) (txt "20 MB/s").

(** A header cell that names two roles. *)
Definition header_shared : list str := [py "IP speed"; py "ISP"].

(** A row of two cells, for columns 0, 1 and 2. *)
Definition row_two_cells : node :=
  tag "tr" [tag "td" [txt "1.2.3.4"]; tag "td" [Text telecom_marker]].

(** A first row with a [th] cell inside an explicit [tbody]. *)
Definition row_with_th : node :=
  tag "tr" [tag "th" [Text telecom_marker]; tag "td" [txt "1.2.3.4"]; tag "td" [txt "10 MB/s"]].

Definition table_tbody : node :=
  tag "table" [tag "tbody" [row_with_th]].

Definition doc_tbody : node := tag "html" [table_tbody].

(** The same first row in a table without sections. *)
Definition table_plain : node :=
  tag "table" [row_with_th;
             row3 (txt "9.9.9.9") (Text telecom_marker) (txt "1 Mbps")].

Definition st0 : state := State ∅ [].

(** ** [fetch_html] and [main]

    The network, the HTML parser and the file system are outside the
    program: the request function of the session, the parser and the file
    write are parameters, and what the program asks of them is kept in the
    result. *)

(** A call into the outside that returns or raises an [Exception], kept
    with its text [str(e)]. *)
Inductive outcome (A : Type) :=
| Returns (a : A)
| Fails (e : list N).
Arguments Returns {A} a.
Arguments Fails {A} e.

(** What [fetch_html] reads of a [requests] response: the error that
    [raise_for_status()] raises (none for a status below 400), the two
    encodings, and [resp.text] as decoded under the encoding set.  Reading
    the encodings and the text does not raise. *)
Record response := Response {
  status_error : option (list N);
  apparent_encoding : option (list N);
  encoding : option (list N);
  text_as : option (list N) -> list N
}.

(** The arguments of [session.get], with the [trust_env] of the session. *)
Record request := Request {
  req_url : list N;
  req_headers : list (list N * list N);
  req_timeout : nat;
  req_verify : bool;
  req_trust_env : bool
}.

Definition TARGET_URL : str := py "https://api.uouin.com/cloudflare.html".

(** Lines 159-168 *)
Definition headers : list (list N * list N) :=
  [ (py "User-Agent",
     py "Mozilla/5.0 (Windows NT 10.0; Win64; x64) AppleWebKit/537.36 "
     ++ py "(KHTML, like Gecko) Chrome/127.0.0.0 Safari/537.36");
    (py "Accept",
     py "text/html,application/xhtml+xml,application/xml;q=0.9,*/*;q=0.8");
    (py "Accept-Language", py "zh-CN,zh;q=0.9,en;q=0.8");
    (py "Cache-Control", py "no-cache");
    (py "Pragma", py "no-cache") ].

(** [resp.apparent_encoding or resp.encoding] *)
Definition chosen_encoding (resp : response) : option (list N) :=
  match apparent_encoding resp with
  | Some (c :: e) => Some (c :: e)
  | _ => encoding resp
  end.

(** Lines 173-176 and 179-182: the request has been made; check the
    status, set the encoding, return the text. *)
Definition read_response (got : outcome response) : outcome (list N) :=
  match got with
  | Fails e => Fails e
  | Returns resp =>
      match status_error resp with
      | Some e => Fails e
      | None => Returns (text_as resp (chosen_encoding resp))
      end
  end.

(** The result of [fetch_html] with the requests it made, in order. *)
Definition fetch_html (get : request -> outcome response) (url : list N)
    : list request * outcome (list N) :=
  let verified := Request url headers 20 true false in
  match read_response (get verified) with
  | Returns text => ([verified], Returns text)
  | Fails _ =>
      let unverified := Request url headers 20 false false in
      ([verified; unverified], read_response (get unverified))
  end.

(** The three messages of [main]. *)
Definition msg_fetch_failed : str :=                        (* 请求网页失败: *)
  [35831; 27714; 32593; 39029; 22833; 36133; 58; 32].
Definition msg_nothing_found : str :=
  (* 未找到电信线路的IP地址。可能页面结构已变或需要浏览器渲染。 *)
  [26410; 25214; 21040; 30005; 20449; 32447; 36335; 30340; 73; 80; 22320;
   22336; 12290; 21487; 33021; 39029; 38754; 32467; 26500; 24050; 21464;
   25110; 38656; 35201; 27983; 35272; 22120; 28210; 26579; 12290].
Definition msg_write_failed : str :=                        (* 写入dx.txt失败: *)
  [20889; 20837; 100; 120; 46; 116; 120; 116; 22833; 36133; 58; 32].

(** The line break of line 204. *)
Definition newline : str := [10].

(** Line 199: [f"{ip}  Cloudflare-{display}"] *)
Definition format_line (e : entry) : str :=
  address e ++ py "  Cloudflare-" ++ display e.

(** What a run of [main] leaves: the exit code, the lines printed, the
    requests made, and the texts handed to the write of [dx.txt]. *)
Record run := Run {
  exit_code : nat;
  printed : list (list N);
  requested : list request;
  written : list (list N)
}.

Section Main.
Context {U : Unicode}.

(** [parse] is [BeautifulSoup(html, "html.parser")]; [write path text]
    opens the file for writing and writes the text, [None] when that went
    through and the exception otherwise.  The parser and [print] can
    raise in the interpreter, outside any [try] of [main]; the model
    follows the runs in which they return, and says nothing of the
    others. *)
Definition main (get : request -> outcome response) (parse : list N -> node)
    (write : list N -> list N -> option (list N)) : result run :=
  match fetch_html get TARGET_URL with
  | (reqs, Fails e) => Ok (Run 1 [msg_fetch_failed ++ e] reqs [])
  | (reqs, Returns html) =>
      items ← extract_telecom_ips (parse html);
      if negb (nonempty items) then Ok (Run 2 [msg_nothing_found] reqs [])
      else
        let lines := format_line <$> items in
        let text := join newline lines ++ newline in
        match write (py "dx.txt") text with
        | Some e => Ok (Run 3 [msg_write_failed ++ e] reqs [text])
        | None => Ok (Run 0 lines reqs [text])
        end
  end.

End Main.

(** The accumulators agree: the set holds the addresses of the list, each
    once. *)
Definition consistent (st : state) : Prop :=
  seen_ips st = list_to_set (address <$> results st)
  ∧ NoDup (address <$> results st).

(** The texts of a row in which addresses are looked for: the row text of
    the fallback mode and the cell texts of the column mode. *)
Definition scanned_texts {U : Unicode} (tr : node) : list (list N) :=
  join (py " ") (get_text [] <$> find_all td_th tr)
  :: (get_text (py " ") <$> find_all td_th tr).

(** An entry of a row was read in a text of the row, and a cell of the
    row holds the marker. *)
Definition found_in {U : Unicode} (tr : node) (e : entry) : Prop :=
  (∃ cell, cell ∈ find_all td_th tr
           ∧ contains telecom_marker (get_text [] cell) = true)
  ∧ ∃ text before after,
      text ∈ scanned_texts tr ∧ text = before ++ address e ++ after.

(** The characters of a display: of the ASCII range only digits, letters,
    the dot, the slash and the blank. *)
Definition display_char (c : N) : Prop :=
  is_ascii c = true →
  ascii_digit c || ascii_letter c || (c =? 46) || (c =? 47) || (c =? 32) = true.

(** The text of a line up to its first blank. *)
Fixpoint line_address (line : list N) : list N :=
  match line with
  | [] => []
  | c :: more => if c =? 32 then [] else c :: line_address more
  end.

(** Oracles of a run in which everything goes through. *)
Definition page_ok (text : list N) : request -> outcome response :=
  fun _ => Returns (Response None None None (fun _ => text)).
Definition write_ok : list N -> list N -> option (list N) := fun _ _ => None.

(** A run on the end-to-end scenario in which everything goes through. *)
Definition sample_run : run :=
  Eval vm_compute in
    match @main sample_tables (page_ok (py "<html>")) (fun _ => doc_columns) write_ok with
    | Ok r => r
    | Raise _ => Run 4 [] [] []
    end.

(** ** Occurrences between word boundaries *)

Section Boundaries.
Context {U : Unicode}.

(** [w] occurs in [text] with no word character right before it and none
    right after it. *)
Definition free_standing (w text : list N) : Prop :=
  ∃ before after,
    text = before ++ w ++ after
    ∧ word_at (last before) = false
    ∧ word_at (head after) = false.

(** Every occurrence of [w] in [text] has a word character right before
    it or right after it. *)
Definition glued (w text : list N) : Prop :=
  ∀ before after,
    text = before ++ w ++ after →
    word_at (last before) = true ∨ word_at (head after) = true.

End Boundaries.


(** Addresses glued to a letter, a digit run or an underscore, in column
    mode and in fallback mode, each in a row of the provider. *)
Definition doc_glued_columns : node :=
  tag "html" [tag "table" [
    header3;
    row3 (txt "x1.2.3.4") (Text telecom_marker) (txt "5 Mbps");
    row3 (txt "1.2.3.4567") (Text telecom_marker) (txt "5 Mbps");
    row3 (txt "1.2.3.4_") (Text telecom_marker) (txt "5 Mbps");
    row3 (txt "ip:5.6.7.8.") (Text telecom_marker) (txt "5 Mbps")]].

Definition doc_glued_fallback : node :=
  tag "html" [tag "table" [
    tag "tr" [tag "td" [Text telecom_marker];
              tag "td" [txt "x1.2.3.4 1.2.3.4567 1.2.3.4_ ip:5.6.7.8. 5 Mbps"]]]].

(** * Properties *)

(** ** The matcher finds only what the pattern matches *)

Section RegexFacts.
Context {U : Unicode}.

Lemma reads_nil cur : reads [] cur cur.
Proof. unfold reads; simpl. split_and!; [done | lia | done]. Qed.

Lemma reads_next cur x cur' : next cur = Some (x, cur') → reads [x] cur cur'.
Proof.
  unfold next, reads. destruct cur as [p n s]; simpl.
  destruct s as [|c s]; [done|]. intros [= <- <-]; simpl.
  split_and!; [done | lia | done].
Qed.

Lemma last_app_cons_some {A} (w1 w2 : list A) :
  last (w1 ++ w2) = match last w2 with Some c => Some c | None => last w1 end.
Proof.
  destruct w2 as [|x w2] using rev_ind; simpl.
  - by rewrite app_nil_r.
  - by rewrite app_assoc, !last_snoc.
Qed.

Lemma reads_app w1 w2 c0 c1 c2 :
  reads w1 c0 c1 → reads w2 c1 c2 → reads (w1 ++ w2) c0 c2.
Proof.
  intros (Hr1 & Hp1 & Hv1) (Hr2 & Hp2 & Hv2). unfold reads.
  split_and!.
  - by rewrite Hr1, Hr2, app_assoc.
  - rewrite Hp2, Hp1, length_app. lia.
  - rewrite Hv2, Hv1, last_app_cons_some. by destruct (last w2).
Qed.

Lemma reads_text w cur cur' :
  reads w cur cur' → take (pos cur' - pos cur) (rest cur) = w.
Proof.
  intros (Hr & Hp & _). rewrite Hr, Hp.
  replace (pos cur + length w - pos cur)%nat with (length w) by lia.
  by rewrite take_app_length.
Qed.

Lemma many_sound {A} ok lo (k : cursor → option A) s : ∀ count p n a,
  many ok lo k count p n s = Some a →
  ∃ w s', s = w ++ s' ∧ Forall (fun c => ok c = true) w
          ∧ (lo ≤ count + length w)%nat
          ∧ k (Cursor (match last w with Some c => Some c | None => p end)
                      (n + length w) s') = Some a.
Proof.
  induction s as [|c s IH]; intros count p n a; simpl.
  - case_match eqn:Hlo; [|done]. intros Hk.
    exists [], []. apply Nat.leb_le in Hlo. simpl.
    replace (n + 0)%nat with n by lia. split_and!; [done | constructor | lia | done].
  - set (here := if (lo <=? count)%nat then k (Cursor p n (c :: s)) else None).
    assert (Hhere : here = Some a →
      ∃ w s', c :: s = w ++ s' ∧ Forall (fun c => ok c = true) w
              ∧ (lo ≤ count + length w)%nat
              ∧ k (Cursor (match last w with Some c => Some c | None => p end)
                          (n + length w) s') = Some a).
    { unfold here. case_match eqn:Hlo; [|done]. intros Hk.
      exists [], (c :: s). apply Nat.leb_le in Hlo. simpl.
      replace (n + 0)%nat with n by lia. split_and!; [done | constructor | lia | done]. }
    destruct (ok c) eqn:Hc; [|done].
    destruct (many ok lo k (S count) (Some c) (S n) s) as [a'|] eqn:Hm; [|done].
    intros [= ->]. apply IH in Hm as (w & s' & -> & Hall & Hlen & Hk).
    exists (c :: w), s'. split_and!.
    + done.
    + by constructor.
    + simpl; lia.
    + rewrite <- Hk. f_equal. f_equal.
      * destruct w as [|x w] using rev_ind; [done|].
        by rewrite app_comm_cons, !last_snoc.
      * simpl; lia.
Qed.

Lemma bt_sound {A} ic r : ∀ (k : cursor → caps → option A) cur cs a,
  bt ic r k cur cs = Some a →
  ∃ cur' cs', matches ic r cur cs cur' cs' ∧ k cur' cs' = Some a.
Proof.
  induction r as [|l|c| |r1 IH1 r2 IH2|r1 IH1 r2 IH2|c lo|r IH lo hi|i r IH];
    intros k cur cs a; simpl.
  - intros Hk. by exists cur, cs.
  - destruct (next cur) as [[x cur']|] eqn:Hn; [|done].
    destruct (lit_matches ic l x) eqn:Hl; [|done]. intros Hk.
    exists cur', cs. split; [|done]. by exists x.
  - destruct (next cur) as [[x cur']|] eqn:Hn; [|done].
    destruct (in_class c x) eqn:Hl; [|done]. intros Hk.
    exists cur', cs. split; [|done]. by exists x.
  - destruct (at_boundary cur) eqn:Hb; [|done]. intros Hk. by exists cur, cs.
  - intros H. apply IH1 in H as (c1 & cs1 & H1 & H).
    apply IH2 in H as (c2 & cs2 & H2 & H).
    exists c2, cs2. split; [|done]. by exists c1, cs1.
  - destruct (bt ic r1 k cur cs) as [a'|] eqn:H1.
    + intros [= ->]. apply IH1 in H1 as (c1 & cs1 & H1 & H).
      exists c1, cs1. split; [by left | done].
    + intros H2. apply IH2 in H2 as (c1 & cs1 & H2 & H).
      exists c1, cs1. split; [by right | done].
  - intros H. apply many_sound in H as (w & s' & Hs & Hall & Hlen & Hk).
    eexists _, cs. split; [|exact Hk].
    exists w. split_and!; [|done|lia|done].
    unfold reads; simpl. split_and!; [done | lia | done].
  - change (bt ic (Rep r lo hi) k cur cs) with
      ((fix loop (budget done : nat) (cur : cursor) (cs : caps) {struct budget} : option A :=
         let stop := if (lo <=? done)%nat then k cur cs else None in
         match budget with
         | O => stop
         | S b =>
             match bt ic r (loop b (S done)) cur cs with
             | Some a => Some a
             | None => stop
             end
         end) hi 0%nat cur cs).
    assert (Hloop : ∀ budget done cur cs a,
      (fix loop (budget done : nat) (cur : cursor) (cs : caps) {struct budget} : option A :=
         let stop := if (lo <=? done)%nat then k cur cs else None in
         match budget with
         | O => stop
         | S b =>
             match bt ic r (loop b (S done)) cur cs with
             | Some a => Some a
             | None => stop
             end
         end) budget done cur cs = Some a →
      ∃ n cur' cs', (lo ≤ done + n)%nat ∧ (n ≤ budget)%nat
                    ∧ iter (matches ic r) n cur cs cur' cs' ∧ k cur' cs' = Some a).
    { clear cur cs a. induction budget as [|b IHb]; intros done cur cs a.
      - cbn zeta. case_match eqn:Hlo; [|done]. intros Hk.
        apply Nat.leb_le in Hlo. exists 0%nat, cur, cs.
        split_and!; [lia | lia | done | done].
      - cbn zeta.
        match goal with |- context [bt ic r ?f cur cs] =>
          destruct (bt ic r f cur cs) as [a'|] eqn:Hb end.
        + intros [= ->]. apply IH in Hb as (c1 & cs1 & H1 & Hb).
          apply IHb in Hb as (n & cur' & cs' & Hlo & Hn & Hit & Hk).
          exists (S n), cur', cs'. split_and!; [lia | lia | | done].
          by exists c1, cs1.
        + case_match eqn:Hlo; [|done]. intros Hk.
          apply Nat.leb_le in Hlo. exists 0%nat, cur, cs.
          split_and!; [lia | lia | done | done]. }
    intros H. apply Hloop in H as (n & cur' & cs' & Hlo & Hn & Hit & Hk).
    exists cur', cs'. split; [|done]. exists n. split; [lia | done].
  - intros H. apply IH in H as (cur' & cs' & Hm & Hk).
    eexists cur', _. split; [|exact Hk]. by exists cs'.
Qed.

End RegexFacts.

Section MatchFacts.
Context {U : Unicode}.

Lemma iter_reads ic r n :
  (∀ cur cs cur' cs', matches ic r cur cs cur' cs' → ∃ w, reads w cur cur') →
  ∀ cur cs cur' cs', iter (matches ic r) n cur cs cur' cs' → ∃ w, reads w cur cur'.
Proof.
  intros Hr. induction n as [|n IH]; intros cur cs cur' cs'; simpl.
  - intros [-> ->]. exists []. apply reads_nil.
  - intros (c1 & cs1 & H1 & H2). apply Hr in H1 as [w1 H1].
    apply IH in H2 as [w2 H2]. exists (w1 ++ w2). by eapply reads_app.
Qed.

Lemma matches_reads ic r : ∀ cur cs cur' cs',
  matches ic r cur cs cur' cs' → ∃ w, reads w cur cur'.
Proof.
  induction r as [|l|c| |r1 IH1 r2 IH2|r1 IH1 r2 IH2|c lo|r IH lo hi|i r IH];
    intros cur cs cur' cs'; simpl.
  - intros [-> ->]. exists []. apply reads_nil.
  - intros (x & Hn & _). exists [x]. by apply reads_next.
  - intros (x & Hn & _). exists [x]. by apply reads_next.
  - intros (_ & -> & _). exists []. apply reads_nil.
  - intros (c1 & cs1 & H1 & H2). apply IH1 in H1 as [w1 H1].
    apply IH2 in H2 as [w2 H2]. exists (w1 ++ w2). by eapply reads_app.
  - intros [H|H]; eauto.
  - intros (w & Hw & _). by exists w.
  - intros (n & _ & Hit). by eapply iter_reads.
  - intros (cs1 & H & _). eauto.
Qed.

Lemma match_at_sound ic r cur m :
  match_at ic r cur = Some m →
  ∃ cur' w, matches ic r cur [] cur' (m_caps m) ∧ reads w cur cur'
            ∧ m_start m = pos cur ∧ m_end m = pos cur' ∧ m_text m = w.
Proof.
  unfold match_at. intros H. apply bt_sound in H as (cur' & cs' & Hm & [= <-]).
  destruct (matches_reads _ _ _ _ _ _ Hm) as [w Hw].
  exists cur', w. simpl. split_and!; try done. by apply reads_text.
Qed.

Lemma search_from_sound ic r s : ∀ before m,
  search_from ic r (last before) (length before) s = Some m →
  ∃ s1 s2, s = s1 ++ s2 ∧ match_at ic r (cursor_at (before ++ s1) s2) = Some m.
Proof.
  induction s as [|c s IH]; intros before m; simpl.
  - destruct (match_at ic r (Cursor (last before) (length before) [])) eqn:Hm; [|done].
    intros [= ->]. exists [], []. split; [done|]. by rewrite app_nil_r.
  - destruct (match_at ic r (Cursor (last before) (length before) (c :: s))) eqn:Hm.
    + intros [= ->]. exists [], (c :: s). split; [done|]. by rewrite app_nil_r.
    + intros H. specialize (IH (before ++ [c]) m).
      rewrite last_snoc, length_app in IH. simpl in IH.
      replace (length before + 1)%nat with (S (length before)) in IH by lia.
      apply IH in H as (s1 & s2 & -> & H). exists (c :: s1), s2.
      by rewrite <- app_assoc in H.
Qed.

Lemma re_search_sound ic r text m :
  re_search ic r text = Some m →
  ∃ s1 s2, text = s1 ++ s2 ∧ match_at ic r (cursor_at s1 s2) = Some m.
Proof. intros H. by apply (search_from_sound ic r text [] m) in H. Qed.

Lemma finditer_from_sound ic r s : ∀ skip before m,
  m ∈ finditer_from ic r skip (last before) (length before) s →
  ∃ s1 s2, s = s1 ++ s2 ∧ match_at ic r (cursor_at (before ++ s1) s2) = Some m.
Proof.
  induction s as [|c s IH]; intros skip before m.
  - destruct skip as [|skip]; simpl; [|by intros ?%elem_of_nil].
    destruct (match_at ic r (Cursor (last before) (length before) [])) eqn:Hm;
      [|by intros ?%elem_of_nil].
    intros ->%list_elem_of_singleton. exists [], []. split; [done|]. by rewrite app_nil_r.
  - assert (Hstep : ∀ skip',
      m ∈ finditer_from ic r skip' (Some c) (S (length before)) s →
      ∃ s1 s2, c :: s = s1 ++ s2
               ∧ match_at ic r (cursor_at (before ++ s1) s2) = Some m).
    { intros skip' H. specialize (IH skip' (before ++ [c]) m).
      rewrite last_snoc, length_app in IH. simpl in IH.
      replace (length before + 1)%nat with (S (length before)) in IH by lia.
      apply IH in H as (s1 & s2 & -> & H). exists (c :: s1), s2.
      by rewrite <- app_assoc in H. }
    destruct skip as [|skip]; simpl; [|by apply Hstep].
    destruct (match_at ic r (Cursor (last before) (length before) (c :: s))) eqn:Hm;
      [|by apply Hstep].
    intros [->|H]%elem_of_cons; [|by eapply Hstep].
    exists [], (c :: s). split; [done|]. by rewrite app_nil_r.
Qed.

Lemma re_finditer_sound ic r text m :
  m ∈ re_finditer ic r text →
  ∃ s1 s2, text = s1 ++ s2 ∧ match_at ic r (cursor_at s1 s2) = Some m.
Proof. intros H. by apply (finditer_from_sound ic r text 0 [] m) in H. Qed.

(** *** Character classes *)

Lemma isdecimal_is_word c : isdecimal c = true → is_word c = true.
Proof.
  unfold isdecimal, decimal_value, is_word, isalnum.
  destruct (is_ascii c).
  - destruct (ascii_digit c); [done | done].
  - destruct (category c); done.
Qed.

Lemma isdecimal_not_dot c : isdecimal c = true → c ≠ 46.
Proof. intros H ->. by vm_compute in H. Qed.

Lemma iter_cls ic k n : ∀ cur cs cur' cs',
  iter (matches ic (Cls k)) n cur cs cur' cs' →
  cs' = cs ∧ ∃ w, reads w cur cur' ∧ length w = n
                  ∧ Forall (fun c => in_class k c = true) w.
Proof.
  induction n as [|n IH]; intros cur cs cur' cs'; simpl.
  - intros [-> ->]. split; [done|]. exists []. split; [apply reads_nil | done].
  - intros (c1 & cs1 & (x & Hn & Hx & ->) & H2).
    apply IH in H2 as (-> & w & Hw & Hlen & Hall). split; [done|].
    exists (x :: w). split_and!.
    + apply (reads_app [x] w cur c1 cur'); [by apply reads_next | done].
    + simpl; lia.
    + by constructor.
Qed.

Lemma octet_matches ic cur cs cur' cs' :
  matches ic octet_regex cur cs cur' cs' →
  cs' = cs ∧ ∃ w, reads w cur cur' ∧ octet_text w.
Proof.
  intros (n & Hn & Hit). apply iter_cls in Hit as (-> & w & Hw & Hlen & Hall).
  split; [done|]. exists w. split; [done|]. split; [done | lia].
Qed.

Lemma lit_reads ic l cur cs cur' cs' :
  matches ic (Lit l) cur cs cur' cs' →
  cs' = cs ∧ ∃ x, reads [x] cur cur' ∧ lit_matches ic l x = true.
Proof.
  intros (x & Hn & Hx & ->). split; [done|]. exists x. split; [by apply reads_next | done].
Qed.

Lemma ip_matches cur cs cur' cs' :
  matches false ip_regex cur cs cur' cs' →
  at_boundary cur = true ∧ at_boundary cur' = true ∧ cs' = cs
  ∧ ∃ w, reads w cur cur' ∧ dotted_quad w.
Proof.
  unfold ip_regex. intros (c0 & cs0 & (Hb & -> & ->) & c3 & cs3 & Hrep & c4 & cs4 & Ho4 & (Hb' & -> & ->)).
  destruct Hrep as (n & Hn & Hit). assert (n = 3%nat) as -> by lia.
  destruct Hit as (a1 & as1 & (b1 & bs1 & Ho1 & Hd1) & a2 & as2 & (b2 & bs2 & Ho2 & Hd2)
                   & a3 & as3 & (b3 & bs3 & Ho3 & Hd3) & -> & ->).
  apply octet_matches in Ho1 as (-> & d1 & Hr1 & Hd1').
  apply octet_matches in Ho2 as (-> & d2 & Hr2 & Hd2').
  apply octet_matches in Ho3 as (-> & d3 & Hr3 & Hd3').
  apply octet_matches in Ho4 as (-> & d4 & Hr4 & Hd4').
  apply lit_reads in Hd1 as (-> & x1 & Hx1 & E1).
  apply lit_reads in Hd2 as (-> & x2 & Hx2 & E2).
  apply lit_reads in Hd3 as (-> & x3 & Hx3 & E3).
  simpl in E1, E2, E3. apply N.eqb_eq in E1 as ->, E2 as ->, E3 as ->.
  split_and!; try done.
  exists (d1 ++ [46] ++ d2 ++ [46] ++ d3 ++ [46] ++ d4). split.
  - repeat (eapply reads_app; [eassumption|]). done.
  - by exists d1, d2, d3, d4.
Qed.

End MatchFacts.

(** ** Splitting and reading numbers *)

Section NumberFacts.
Context {U : Unicode}.

Lemma split_on_no_sep c w :
  Forall (fun x => x ≠ c) w → split_on c w = [w].
Proof.
  induction 1 as [|x w Hx _ IH]; simpl; [done|].
  apply N.eqb_neq in Hx. by rewrite Hx, IH.
Qed.

Lemma split_on_app c w s :
  Forall (fun x => x ≠ c) w → split_on c (w ++ c :: s) = w :: split_on c s.
Proof.
  induction 1 as [|x w Hx _ IH]; simpl.
  - by rewrite N.eqb_refl.
  - apply N.eqb_neq in Hx. by rewrite Hx, IH.
Qed.

Lemma digits_no_dot w :
  Forall (fun c => isdecimal c = true) w → Forall (fun x => x ≠ 46) w.
Proof. intros H. eapply Forall_impl; [exact H|]. intros c. apply isdecimal_not_dot. Qed.

Lemma digits_from_total w : ∀ acc,
  Forall (fun c => isdecimal c = true) w → ∃ v, digits_from acc w = Some v.
Proof.
  induction w as [|c w IH]; intros acc Hall; simpl; [by eexists|].
  inversion Hall as [|? ? Hc Hw]; subst. unfold isdecimal in Hc.
  destruct (decimal_value c); [|done]. by apply IH.
Qed.

Lemma digits_value_total w : digit_run w → ∃ v, digits_value w = Some v.
Proof.
  intros [Hall Hne]. destruct w as [|c w]; [done|].
  unfold digits_value. by apply digits_from_total.
Qed.

Lemma octet_text_run w : octet_text w → digit_run w.
Proof. intros [Hall Hlen]. split; [done|]. intros ->. simpl in Hlen. lia. Qed.

Lemma py_int_total w : digit_run w → ∃ v, py_int w = Ok (Z.of_N v) ∧ digits_value w = Some v.
Proof.
  intros Hw. destruct (digits_value_total w Hw) as [v Hv].
  exists v. unfold py_int. by rewrite Hv.
Qed.

(** On runs of digits the test of line 115 and 149 never raises and is the
    plain range check. *)
Lemma octets_in_range_runs os :
  Forall digit_run os → octets_in_range os = Ok (forallb octet_ok os).
Proof.
  induction 1 as [|o os Ho _ IH]; simpl; [done|].
  destruct (py_int_total o Ho) as (v & Hi & Hv).
  rewrite Hi. unfold octet_ok. rewrite Hv. simpl.
  change (result_bind _ _ ?f (Ok ?a)) with (f a). cbn beta.
  assert ((0 <=? Z.of_N v)%Z = true) as -> by (apply Z.leb_le; lia).
  simpl. destruct (v <=? 255) eqn:Hle.
  - assert ((Z.of_N v <=? 255)%Z = true) as -> by (apply Z.leb_le; apply N.leb_le in Hle; lia).
    done.
  - assert ((Z.of_N v <=? 255)%Z = false) as -> by (apply Z.leb_gt; apply N.leb_gt in Hle; lia).
    done.
Qed.

Lemma dotted_quad_split w :
  dotted_quad w →
  ∃ d1 d2 d3 d4, split_on 46 w = [d1; d2; d3; d4]
    ∧ w = d1 ++ [46] ++ d2 ++ [46] ++ d3 ++ [46] ++ d4
    ∧ octet_text d1 ∧ octet_text d2 ∧ octet_text d3 ∧ octet_text d4.
Proof.
  intros (d1 & d2 & d3 & d4 & -> & H1 & H2 & H3 & H4).
  exists d1, d2, d3, d4. split_and!; try done.
  simpl. rewrite !split_on_app, split_on_no_sep;
    try (apply digits_no_dot; by (apply H1 || apply H2 || apply H3 || apply H4)).
  done.
Qed.

Lemma dotted_quad_in_range w :
  dotted_quad w → octets_in_range (split_on 46 w) = Ok (valid_ip w).
Proof.
  intros Hw. destruct (dotted_quad_split w Hw) as (d1 & d2 & d3 & d4 & Hs & _ & H1 & H2 & H3 & H4).
  unfold valid_ip. rewrite Hs. apply octets_in_range_runs.
  repeat constructor; by apply octet_text_run.
Qed.

Lemma py_float_total w : decimal_text w → ∃ v, py_float w = Ok v.
Proof.
  unfold py_float. intros [Hw | (i & f & -> & Hi & Hf)].
  - rewrite split_on_no_sep by (apply digits_no_dot; apply Hw).
    destruct (digits_value_total w Hw) as [v ->]. by eexists.
  - simpl. rewrite split_on_app by (apply digits_no_dot; apply Hi).
    rewrite split_on_no_sep by (apply digits_no_dot; apply Hf).
    destruct (digits_value_total i Hi) as [a ->].
    destruct (digits_value_total f Hf) as [b ->]. by eexists.
Qed.

End NumberFacts.

(** ** The matcher finds a match wherever the pattern has one *)

Section RegexComplete.
Context {U : Unicode}.

Lemma many_complete {A} ok lo (k : cursor → option A) w s' : ∀ count p n a,
  Forall (fun c => ok c = true) w →
  (lo ≤ count + length w)%nat →
  k (Cursor (match last w with Some c => Some c | None => p end)
            (n + length w) s') = Some a →
  is_Some (many ok lo k count p n (w ++ s')).
Proof.
  induction w as [|c w IH]; intros count p n a Hall Hlo Hk.
  - simpl in *. replace (n + 0)%nat with n in Hk by lia.
    assert ((lo <=? count)%nat = true) as Hle by (apply Nat.leb_le; lia).
    destruct s' as [|c s'']; simpl; rewrite Hle, Hk.
    + by eexists.
    + destruct (ok c); [|by eexists]. by destruct (many _ _ _ _ _ _ _); eexists.
  - inversion Hall as [|? ? Hc Hw]; subst. simpl. rewrite Hc.
    destruct (IH (S count) (Some c) (S n) a Hw) as [a' ->]; [simpl in Hlo; lia| |by eexists].
    rewrite <- Hk. f_equal. f_equal.
    + destruct w as [|x w] using rev_ind; [done|].
      by rewrite app_comm_cons, !last_snoc.
    + simpl; lia.
Qed.

Lemma bt_complete {A} ic r : ∀ (k : cursor → caps → option A) cur cs cur' cs' a,
  matches ic r cur cs cur' cs' → k cur' cs' = Some a →
  is_Some (bt ic r k cur cs).
Proof.
  induction r as [|l|c| |r1 IH1 r2 IH2|r1 IH1 r2 IH2|c lo|r IH lo hi|i r IH];
    intros k cur cs cur' cs' a; simpl.
  - intros [-> ->] Hk. by eexists.
  - intros (x & -> & -> & ->) Hk. by eexists.
  - intros (x & -> & -> & ->) Hk. by eexists.
  - intros (-> & -> & ->) Hk. by eexists.
  - intros (c1 & cs1 & H1 & H2) Hk.
    destruct (IH2 k _ _ _ _ _ H2 Hk) as [a2 Ha2].
    by apply (IH1 (bt ic r2 k) _ _ _ _ _ H1 Ha2).
  - intros [H|H] Hk.
    + destruct (IH1 k _ _ _ _ _ H Hk) as [a1 ->]. by eexists.
    + destruct (bt ic r1 k cur cs); [by eexists|]. by apply (IH2 k _ _ _ _ _ H Hk).
  - intros (w & (Hrest & Hpos & Hprev) & Hall & Hlo & ->) Hk.
    rewrite Hrest. eapply many_complete; [done | simpl; lia |].
    rewrite <- Hk. f_equal. destruct cur'; simpl in *. by subst.
  - intros (n & [Hlo Hhi] & Hit) Hk.
    change (bt ic (Rep r lo hi) k cur cs) with
      ((fix loop (budget done : nat) (cur : cursor) (cs : caps) {struct budget} : option A :=
         let stop := if (lo <=? done)%nat then k cur cs else None in
         match budget with
         | O => stop
         | S b =>
             match bt ic r (loop b (S done)) cur cs with
             | Some a => Some a
             | None => stop
             end
         end) hi 0%nat cur cs).
    assert (Hlo' : (lo ≤ 0 + n)%nat) by lia. clear Hlo.
    revert Hlo' Hhi Hit. generalize 0%nat as done. revert cur cs n.
    induction hi as [|b IHb]; intros cur cs n done Hlo Hhi Hit.
    + assert (n = 0%nat) as -> by lia. destruct Hit as [-> ->]. cbn zeta.
      assert ((lo <=? done)%nat = true) as -> by (apply Nat.leb_le; lia).
      by eexists.
    + cbn zeta. destruct n as [|n].
      * destruct Hit as [-> ->].
        assert ((lo <=? done)%nat = true) as -> by (apply Nat.leb_le; lia).
        match goal with |- context [bt ic r ?f cur cs] =>
          destruct (bt ic r f cur cs) end; by eexists.
      * destruct Hit as (c1 & cs1 & H1 & Hit).
        destruct (IHb c1 cs1 n (S done)) as [a' Ha']; [lia | lia | done |].
        destruct (IH _ _ _ _ _ _ H1 Ha') as [a'' ->]. by eexists.
  - intros (cs1 & H & ->) Hk.
    by apply (IH (fun cur' cs' =>
                    k cur' ((i, take (pos cur' - pos cur) (rest cur)) :: cs'))
                 _ _ _ _ _ H Hk).
Qed.

Lemma match_at_complete ic r cur cur' cs' :
  matches ic r cur [] cur' cs' → is_Some (match_at ic r cur).
Proof. intros H. unfold match_at. by eapply bt_complete. Qed.

Lemma match_at_none ic r cur :
  match_at ic r cur = None → ∀ cur' cs', ¬ matches ic r cur [] cur' cs'.
Proof.
  intros Hnone cur' cs' H. apply match_at_complete in H as [m Hm]. congruence.
Qed.

(** [search] returns the match at the leftmost position that has one. *)
Lemma search_from_leftmost ic r s : ∀ before m,
  search_from ic r (last before) (length before) s = Some m →
  ∃ s1 s2, s = s1 ++ s2
    ∧ match_at ic r (cursor_at (before ++ s1) s2) = Some m
    ∧ ∀ t1 t2, s = t1 ++ t2 → (length t1 < length s1)%nat →
               match_at ic r (cursor_at (before ++ t1) t2) = None.
Proof.
  induction s as [|c s IH]; intros before m; simpl.
  - destruct (match_at ic r (Cursor (last before) (length before) [])) eqn:Hm; [|done].
    intros [= ->]. exists [], []. split_and!; [done | by rewrite app_nil_r |].
    intros t1 t2 _ Hlen. simpl in Hlen. lia.
  - destruct (match_at ic r (Cursor (last before) (length before) (c :: s))) eqn:Hm.
    + intros [= ->]. exists [], (c :: s). split_and!; [done | by rewrite app_nil_r |].
      intros t1 t2 _ Hlen. simpl in Hlen. lia.
    + intros H. specialize (IH (before ++ [c]) m).
      rewrite last_snoc, length_app in IH. simpl in IH.
      replace (length before + 1)%nat with (S (length before)) in IH by lia.
      apply IH in H as (s1 & s2 & -> & H & Hleft). exists (c :: s1), s2.
      split_and!; [done | by rewrite <- app_assoc in H |].
      intros [|x t1] t2 Heq Hlen.
      * simpl in Heq. subst t2. by rewrite app_nil_r.
      * simpl in Heq. injection Heq as -> Heq.
        specialize (Hleft t1 t2 Heq). rewrite <- app_assoc in Hleft.
        apply Hleft. simpl in Hlen. lia.
Qed.


Lemma re_search_leftmost ic r text m :
  re_search ic r text = Some m →
  ∃ s1 s2, text = s1 ++ s2
    ∧ match_at ic r (cursor_at s1 s2) = Some m
    ∧ ∀ t1 t2, text = t1 ++ t2 → (length t1 < length s1)%nat →
               match_at ic r (cursor_at t1 t2) = None.
Proof. intros H. by apply (search_from_leftmost ic r text [] m) in H. Qed.


End RegexComplete.

(** ** The speed pattern and [_parse_speed_to_mbps] *)

Section SpeedFacts.
Context {U : Unicode}.

Lemma lits_matches ic s : ∀ cur cs cur' cs',
  matches ic (lits s) cur cs cur' cs' →
  cs' = cs ∧ ∃ w, reads w cur cur'
                  ∧ Forall2 (fun l x => lit_matches ic l x = true) s w.
Proof.
  induction s as [|l s IH]; intros cur cs cur' cs'; simpl.
  - intros [-> ->]. split; [done|]. exists []. split; [apply reads_nil | constructor].
  - intros (c1 & cs1 & H1 & H2). apply lit_reads in H1 as (-> & x & Hx & Hl).
    apply IH in H2 as (-> & w & Hw & Hall). split; [done|].
    exists (x :: w). split; [|by constructor].
    by apply (reads_app [x] w cur c1 cur').
Qed.

Lemma many_digits_matches ic cur cs cur' cs' :
  matches ic (Many ClsDigit 1) cur cs cur' cs' →
  cs' = cs ∧ ∃ w, reads w cur cur' ∧ digit_run w.
Proof.
  intros (w & Hw & Hall & Hlen & ->). split; [done|]. exists w. split; [done|].
  split; [done|]. intros ->. simpl in Hlen. lia.
Qed.

Lemma number_matches cur cs cur' cs' :
  matches true (Seq (Many ClsDigit 1) (Rep (Seq (Lit 46) (Many ClsDigit 1)) 0 1))
          cur cs cur' cs' →
  cs' = cs ∧ ∃ w, reads w cur cur' ∧ decimal_text w.
Proof.
  intros (c1 & cs1 & Hi & n & Hn & Hit).
  apply many_digits_matches in Hi as (-> & i & Hri & Hi).
  destruct n as [|[|n]]; [| |lia].
  - destruct Hit as [-> ->]. split; [done|]. exists i. split; [done | by left].
  - destruct Hit as (c2 & cs2 & (c3 & cs3 & Hdot & Hf) & -> & ->).
    apply lit_reads in Hdot as (-> & x & Hx & Hl).
    simpl in Hl. apply N.eqb_eq in Hl as ->.
    apply many_digits_matches in Hf as (-> & f & Hrf & Hf).
    split; [done|]. exists (i ++ [46] ++ f). split.
    + eapply reads_app; [eassumption|]. by eapply reads_app.
    + right. by exists i, f.
Qed.

Lemma unit_matches cur cs cur' cs' :
  matches true (Alt (lits (py "GB/s"))
               (Alt (lits (py "MB/s"))
               (Alt (lits (py "KB/s"))
               (Alt (lits (py "Gbps"))
               (Alt (lits (py "Mbps"))
                    (lits (py "Kbps"))))))) cur cs cur' cs' →
  cs' = cs ∧ ∃ w, reads w cur cur' ∧ unit_text w.
Proof.
  intros H.
  assert (Hone : ∀ name, name ∈ unit_names → matches true (lits name) cur cs cur' cs' →
                 cs' = cs ∧ ∃ w, reads w cur cur' ∧ unit_text w).
  { intros name Hin Hm. apply lits_matches in Hm as (-> & w & Hw & Hall).
    split; [done|]. exists w. split; [done|]. by exists name. }
  destruct H as [H|[H|[H|[H|[H|H]]]]];
    (eapply Hone; [|exact H]); apply list_elem_of_In; simpl; tauto.
Qed.

Lemma speed_matches cur cur' cs' :
  matches true speed_regex cur [] cur' cs' →
  ∃ num ws unit,
    reads (num ++ ws ++ unit) cur cur'
    ∧ decimal_text num
    ∧ Forall (fun c => isspace c = true) ws
    ∧ unit_text unit
    ∧ cs' = [(2%nat, unit); (1%nat, num)].
Proof.
  unfold speed_regex.
  intros (c1 & cs1 & (cs0 & Hnum & ->) & c2 & cs2 & Hws & (cs3 & Hunit & ->)).
  apply number_matches in Hnum as (-> & num & Hrn & Hnum).
  destruct Hws as (ws & Hrw & Hws & _ & ->).
  apply unit_matches in Hunit as (-> & unit & Hru & Hunit).
  exists num, ws, unit. split_and!; try done.
  - eapply reads_app; [eassumption|]. by eapply reads_app.
  - by rewrite (reads_text _ _ _ Hrn), (reads_text _ _ _ Hru).
Qed.

(** Conversely, the pattern matches every speed expression. *)

Lemma many_intro ic k lo cur cs w r :
  rest cur = w ++ r → Forall (fun c => in_class k c = true) w → (lo ≤ length w)%nat →
  ∃ cur', matches ic (Many k lo) cur cs cur' cs ∧ rest cur' = r.
Proof.
  intros Hrest Hall Hlo.
  exists (Cursor (match last w with Some c => Some c | None => prev cur end)
                 (pos cur + length w) r).
  split; [|done]. exists w. by split_and!.
Qed.

Lemma lit_intro ic l cur cs x r :
  rest cur = x :: r → lit_matches ic l x = true →
  ∃ cur', matches ic (Lit l) cur cs cur' cs ∧ rest cur' = r.
Proof.
  intros Hrest Hx. exists (Cursor (Some x) (S (pos cur)) r).
  split; [|done]. exists x. unfold next. by rewrite Hrest.
Qed.

Lemma lits_intro ic s w : ∀ cur cs r,
  Forall2 (fun l x => lit_matches ic l x = true) s w → rest cur = w ++ r →
  ∃ cur', matches ic (lits s) cur cs cur' cs ∧ rest cur' = r.
Proof.
  intros cur cs r Hall. revert cur.
  induction Hall as [|l x s w Hx _ IH]; intros cur Hrest; simpl.
  - by exists cur.
  - destruct (lit_intro ic l cur cs x (w ++ r) Hrest Hx) as (c1 & H1 & Hr1).
    destruct (IH c1 Hr1) as (c2 & H2 & Hr2).
    exists c2. split; [|done]. by exists c1, cs.
Qed.

Lemma number_intro cur cs num r :
  decimal_text num → rest cur = num ++ r →
  ∃ cur', matches true (Seq (Many ClsDigit 1) (Rep (Seq (Lit 46) (Many ClsDigit 1)) 0 1))
                  cur cs cur' cs
          ∧ rest cur' = r.
Proof.
  assert (Hlen : ∀ w, digit_run w → (1 ≤ length w)%nat).
  { intros [|c w] [_ Hne]; [done | simpl; lia]. }
  intros [Hnum | (i & f & -> & Hi & Hf)] Hrest.
  - destruct (many_intro true ClsDigit 1 cur cs num r Hrest) as (c1 & H1 & Hr1);
      [apply Hnum | by apply Hlen |].
    exists c1. split; [|done]. exists c1, cs. split; [done|].
    exists 0%nat. split; [lia | done].
  - rewrite <- !app_assoc in Hrest.
    destruct (many_intro true ClsDigit 1 cur cs i _ Hrest) as (c1 & H1 & Hr1);
      [apply Hi | by apply Hlen |].
    destruct (lit_intro true 46 c1 cs 46 (f ++ r) Hr1) as (c2 & H2 & Hr2); [done|].
    destruct (many_intro true ClsDigit 1 c2 cs f r Hr2) as (c3 & H3 & Hr3);
      [apply Hf | by apply Hlen |].
    exists c3. split; [|done]. exists c1, cs. split; [done|].
    exists 1%nat. split; [lia|]. exists c3, cs. split; [|done]. by exists c2, cs.
Qed.

Lemma unit_intro cur cs unit r :
  unit_text unit → rest cur = unit ++ r →
  ∃ cur', matches true (Alt (lits (py "GB/s"))
                       (Alt (lits (py "MB/s"))
                       (Alt (lits (py "KB/s"))
                       (Alt (lits (py "Gbps"))
                       (Alt (lits (py "Mbps"))
                            (lits (py "Kbps"))))))) cur cs cur' cs
          ∧ rest cur' = r.
Proof.
  intros (name & Hname & Hall) Hrest.
  destruct (lits_intro true name unit cur cs r Hall Hrest) as (c1 & H1 & Hr1).
  exists c1. split; [|done].
  apply list_elem_of_In in Hname. simpl in Hname.
  destruct Hname as [<-|[<-|[<-|[<-|[<-|[<-|[]]]]]]]; simpl; tauto.
Qed.

Lemma speed_expression_matches w cur r :
  speed_expression w → rest cur = w ++ r →
  ∃ cur' cs', matches true speed_regex cur [] cur' cs'.
Proof.
  intros (num & ws & unit & -> & Hnum & Hws & Hunit) Hrest.
  rewrite <- !app_assoc in Hrest.
  destruct (number_intro cur [] num _ Hnum Hrest) as (c1 & H1 & Hr1).
  destruct (many_intro true ClsSpace 0 c1
              [(1%nat, take (pos c1 - pos cur) (rest cur))] ws _ Hr1 Hws)
    as (c2 & H2 & Hr2); [lia|].
  destruct (unit_intro c2 [(1%nat, take (pos c1 - pos cur) (rest cur))] unit r Hunit Hr2)
    as (c3 & H3 & Hr3).
  eexists c3, _. unfold speed_regex.
  exists c1, [(1%nat, take (pos c1 - pos cur) (rest cur))]. split.
  - by exists [].
  - exists c2, [(1%nat, take (pos c1 - pos cur) (rest cur))]. split; [done|].
    eexists. split; [exact H3 | reflexivity].
Qed.

Lemma no_match_no_expression t1 t2 :
  match_at true speed_regex (cursor_at t1 t2) = None →
  ¬ expression_at (t1 ++ t2) (length t1).
Proof.
  intros Hnone (t1' & w & r & Heq & Hlen & Hw).
  apply app_inj_1 in Heq as [-> ->]; [|done].
  destruct (speed_expression_matches w (cursor_at t1' (w ++ r)) r Hw) as (cur' & cs' & Hm);
    [done|].
  by apply (match_at_none _ _ _ Hnone) in Hm.
Qed.

Lemma expression_at_split text n :
  expression_at text n → ∃ t1 t2, text = t1 ++ t2 ∧ length t1 = n.
Proof. intros (t1 & w & r & -> & Hlen & _). by exists t1, (w ++ r). Qed.

(** What a successful search of the speed pattern has found: the leftmost
    speed expression of the text. *)
Lemma speed_search text m :
  re_search true speed_regex text = Some m →
  ∃ before num ws unit after,
    text = before ++ num ++ ws ++ unit ++ after
    ∧ decimal_text num
    ∧ Forall (fun c => isspace c = true) ws
    ∧ unit_text unit
    ∧ group m 1 = Some num ∧ group m 2 = Some unit
    ∧ ∀ n, (n < length before)%nat → ¬ expression_at text n.
Proof.
  intros H. apply re_search_leftmost in H as (s1 & s2 & -> & H & Hleft).
  apply match_at_sound in H as (cur' & w & Hm & Hw & _ & _ & _).
  apply speed_matches in Hm as (num & ws & unit & Hr & Hnum & Hws & Hunit & Hcs).
  exists s1, num, ws, unit, (rest cur').
  destruct Hr as (Hr & _). simpl in Hr. subst s2.
  rewrite <- !app_assoc in Hleft. rewrite <- !app_assoc.
  unfold group. rewrite Hcs. split_and!; try done.
  intros n Hn Hat. destruct (expression_at_split _ _ Hat) as (t1 & t2 & Heq & <-).
  rewrite Heq in Hat. apply no_match_no_expression in Hat; [done|].
  by apply Hleft.
Qed.



(** The function never raises. *)
Lemma _parse_speed_to_mbps_total text : ∃ r, _parse_speed_to_mbps text = Ok r.
Proof.
  unfold _parse_speed_to_mbps.
  destruct (re_search true speed_regex text) as [m|] eqn:Hs; [|by eexists].
  apply speed_search in Hs as (b & num & ws & unit & a & _ & Hnum & _ & _ & -> & -> & _).
  destruct (py_float_total num Hnum) as [v ->].
  change (result_bind _ _ ?f (Ok ?a)) with (f a). cbn beta zeta.
  repeat case_match; by eexists.
Qed.

Lemma speed_of_spec text :
  _parse_speed_to_mbps text = Ok (speed_of text).
Proof.
  unfold speed_of. destruct (_parse_speed_to_mbps_total text) as [r ->].
  by destruct r.
Qed.

End SpeedFacts.

(** ** The loops, as folds over the candidate stream *)

Section LoopFacts.
Context {U : Unicode}.

Lemma bind_lift_ok {A B} (a : A) (f : A → M B) st :
  bind (lift (Ok a)) f st = f a st.
Proof. done. Qed.

Lemma record_ip_absorb ip v d st :
  record_ip ip v d st = Ok (tt, absorb st (Entry ip v d)).
Proof. unfold record_ip, absorb; simpl. by case_bool_decide. Qed.

Lemma for_each_emits {A} (l : list A) (body : A → M unit) (f : A → list entry) :
  (∀ x st, x ∈ l → body x st = Ok (tt, foldl absorb st (f x))) →
  ∀ st, for_each l body st = Ok (tt, foldl absorb st (flat_map f l)).
Proof.
  induction l as [|x l IH]; intros Hbody st; simpl; [done|].
  unfold bind. rewrite Hbody by apply list_elem_of_here.
  rewrite foldl_app. apply IH. intros y st' Hy. apply Hbody. by apply list_elem_of_further.
Qed.

Lemma search_ip_dotted text m :
  re_search false ip_regex text = Some m → dotted_quad (m_text m).
Proof.
  intros H. apply re_search_sound in H as (s1 & s2 & _ & H).
  apply match_at_sound in H as (cur' & w & Hm & Hw & _ & _ & ->).
  apply ip_matches in Hm as (_ & _ & _ & w' & Hw' & Hq).
  by rewrite <- (reads_text _ _ _ Hw), (reads_text _ _ _ Hw').
Qed.

Lemma findall_ip_dotted text ip :
  ip ∈ re_findall false ip_regex text → dotted_quad ip.
Proof.
  unfold re_findall. intros (m & -> & H)%list_elem_of_fmap.
  apply re_finditer_sound in H as (s1 & s2 & _ & H).
  apply match_at_sound in H as (cur' & w & Hm & Hw & _ & _ & ->).
  apply ip_matches in Hm as (_ & _ & _ & w' & Hw' & Hq).
  by rewrite <- (reads_text _ _ _ Hw), (reads_text _ _ _ Hw').
Qed.

Lemma too_narrow_spec i p s (tds : list node) :
  too_narrow i p s tds = true ↔ (length tds ≤ Nat.max i (Nat.max p s))%nat.
Proof.
  unfold too_narrow. rewrite orb_true_iff, Nat.leb_le. split; [|tauto].
  intros [H|H]; [|done]. destruct tds; [simpl; lia | done].
Qed.

Lemma column_row_emits i p s tr st :
  column_row i p s tr st = Ok (tt, foldl absorb st (column_emits i p s tr)).
Proof.
  unfold column_row, column_emits.
  destruct (too_narrow i p s (find_all td_th tr)) eqn:Hw.
  - apply too_narrow_spec in Hw.
    destruct (find_all td_th tr !! p) eqn:Hp; [|done].
    destruct (find_all td_th tr !! i) eqn:Hi; [|done].
    destruct (find_all td_th tr !! s) eqn:Hs; [|done].
    apply lookup_lt_Some in Hp, Hi, Hs. lia.
  - assert (Hlen : (Nat.max i (Nat.max p s) < length (find_all td_th tr))%nat).
    { destruct (decide (length (find_all td_th tr) ≤ Nat.max i (Nat.max p s))%nat) as [Hle|]; [|lia].
      apply too_narrow_spec in Hle. congruence. }
    destruct (lookup_lt_is_Some_2 (find_all td_th tr) p) as [pc Hp]; [lia|].
    destruct (lookup_lt_is_Some_2 (find_all td_th tr) i) as [ic Hi]; [lia|].
    destruct (lookup_lt_is_Some_2 (find_all td_th tr) s) as [sc Hs]; [lia|].
    unfold index. rewrite Hp, Hi, Hs. rewrite bind_lift_ok.
    destruct (contains telecom_marker (get_text [] pc)); simpl; [|done].
    rewrite bind_lift_ok.
    destruct (re_search false ip_regex (get_text (py " ") ic)) as [m|] eqn:Hm; [|done].
    rewrite (dotted_quad_in_range _ (search_ip_dotted _ _ Hm)), bind_lift_ok.
    destruct (valid_ip (m_text m)); simpl; [|done].
    rewrite bind_lift_ok, speed_of_spec, bind_lift_ok.
    destruct (speed_of (get_text (py " ") sc)) as [[v d]|]; by rewrite record_ip_absorb.
Qed.

Lemma fallback_row_emits tr st :
  fallback_row tr st = Ok (tt, foldl absorb st (fallback_emits tr)).
Proof.
  unfold fallback_row, fallback_emits.
  destruct (find_all td_th tr) as [|c cells] eqn:Hcells; [done|].
  cbn [nonempty negb].
  set (row_text := join (py " ") (get_text [] <$> c :: cells)).
  destruct (contains telecom_marker row_text); simpl; [|done].
  rewrite speed_of_spec, bind_lift_ok.
  set (speed := default (0%Q, unknown_label) (speed_of row_text)).
  assert (Hspeed : match speed_of row_text with Some p => p | None => (0%Q, unknown_label) end = speed)
    by (unfold speed; by destruct (speed_of row_text)).
  rewrite Hspeed. destruct speed as [v d]. simpl.
  rewrite (for_each_emits _ _ (fun ip => if valid_ip ip then [Entry ip v d] else [])).
  - f_equal. f_equal. f_equal. clear.
    induction (re_findall false ip_regex row_text) as [|ip l IH]; [done|].
    simpl. rewrite filter_cons. destruct (valid_ip ip) eqn:Hv.
    + rewrite decide_True by done. simpl. by rewrite IH.
    + rewrite decide_False by congruence. done.
  - intros ip st' Hip. apply findall_ip_dotted in Hip.
    rewrite (dotted_quad_in_range _ Hip), bind_lift_ok.
    destruct (valid_ip ip); [by rewrite record_ip_absorb | done].
Qed.

Lemma scan_table_emits table st :
  scan_table table st = Ok (tt, foldl absorb st (table_emits table)).
Proof.
  unfold scan_table, table_emits.
  cbn zeta. destruct (columns_of (header_cells_of table)) as [[i|] [p|] [s|]]; simpl;
    apply for_each_emits; intros; auto using column_row_emits, fallback_row_emits.
Qed.

(** The accumulators after a run of [absorb]. *)
Lemma absorb_results l : ∀ st,
  results (foldl absorb st l) = results st ++ keep_first (seen_ips st) l.
Proof.
  induction l as [|e l IH]; intros st; simpl; [by rewrite app_nil_r|].
  rewrite IH. unfold absorb. case_bool_decide; simpl; [done|].
  by rewrite <- app_assoc.
Qed.

(** [extract_telecom_ips] never raises; it returns the first occurrences
    of the candidate stream, sorted. *)
Lemma extract_telecom_ips_spec soup :
  extract_telecom_ips soup = Ok (sort_reverse (discovered soup)).
Proof.
  unfold extract_telecom_ips, discovered, emissions.
  rewrite (for_each_emits _ _ table_emits) by (intros; apply scan_table_emits).
  by rewrite absorb_results.
Qed.

End LoopFacts.

(** ** Deduplication *)

Section KeepFirst.

Lemma keep_first_elem l : ∀ seen r,
  r ∈ keep_first seen l →
  (address r ∉ seen)
  ∧ ∃ i, l !! i = Some r
         ∧ ∀ j e, (j < i)%nat → l !! j = Some e → address e ≠ address r.
Proof.
  induction l as [|e l IH]; intros seen r; simpl; [by intros ?%elem_of_nil|].
  case_bool_decide as Hseen.
  - intros Hr. destruct (IH _ _ Hr) as (Hns & i & Hi & Hfirst).
    split; [done|]. exists (S i). split; [done|].
    intros [|j] e' Hj; simpl.
    + intros [= <-] Heq. apply Hns. by rewrite <- Heq.
    + apply Hfirst. lia.
  - intros [->|Hr]%elem_of_cons.
    + split; [done|]. exists 0%nat. split; [done|]. intros j e' Hj. lia.
    + destruct (IH _ _ Hr) as (Hns & i & Hi & Hfirst).
      rewrite elem_of_union, elem_of_singleton in Hns.
      split; [tauto|]. exists (S i). split; [done|].
      intros [|j] e' Hj; simpl.
      * intros [= <-] Heq. apply Hns. left. done.
      * apply Hfirst. lia.
Qed.

Lemma keep_first_NoDup l : ∀ seen, NoDup (address <$> keep_first seen l).
Proof.
  induction l as [|e l IH]; intros seen; simpl; [constructor|].
  case_bool_decide as Hseen; [apply IH|].
  rewrite fmap_cons. apply NoDup_cons. split; [|apply IH].
  intros (r & Heq & Hr)%list_elem_of_fmap.
  apply keep_first_elem in Hr as [Hns _]. apply Hns.
  rewrite elem_of_union, elem_of_singleton. left. done.
Qed.

Lemma keep_first_covers l : ∀ seen e,
  e ∈ l → address e ∉ seen → ∃ r, r ∈ keep_first seen l ∧ address r = address e.
Proof.
  induction l as [|x l IH]; intros seen e; [by intros ?%elem_of_nil|].
  simpl. intros [->|He]%elem_of_cons Hns.
  - rewrite bool_decide_eq_false_2 by done. exists x. split; [apply list_elem_of_here | done].
  - case_bool_decide as Hseen; [by apply IH|].
    destruct (decide (address e = address x)) as [Heq|Hne].
    + exists x. split; [apply list_elem_of_here | done].
    + destruct (IH ({[address x]} ∪ seen) e He) as (r & Hr & Har).
      * rewrite elem_of_union, elem_of_singleton. tauto.
      * exists r. split; [by apply list_elem_of_further | done].
Qed.

Lemma keep_first_sublist l : ∀ seen, keep_first seen l `sublist_of` l.
Proof.
  induction l as [|e l IH]; intros seen; simpl; [done|].
  case_bool_decide; [apply sublist_cons | apply sublist_skip]; apply IH.
Qed.

End KeepFirst.

(** ** The sort *)

Section SortFacts.

Lemma key_lt_true a b : key_lt a b = true ↔ (mbps a < mbps b)%Q.
Proof.
  unfold key_lt. rewrite negb_true_iff, <- not_true_iff_false, Qle_bool_iff.
  split; [apply Qnot_le_lt | apply Qlt_not_le].
Qed.

Lemma key_lt_false a b : key_lt a b = false ↔ (mbps b <= mbps a)%Q.
Proof. unfold key_lt. by rewrite negb_false_iff, Qle_bool_iff. Qed.

Lemma insert_desc_perm x l : insert_desc x l ≡ₚ x :: l.
Proof.
  induction l as [|y l IH]; simpl; [done|].
  destruct (key_lt x y); [|done]. by rewrite IH, Permutation_swap.
Qed.

Lemma sort_reverse_perm l : sort_reverse l ≡ₚ l.
Proof.
  induction l as [|x l IH]; simpl; [done|].
  by rewrite insert_desc_perm, IH.
Qed.

Lemma insert_desc_sorted x l :
  StronglySorted key_ge l → StronglySorted key_ge (insert_desc x l).
Proof.
  induction l as [|y l IH]; simpl; intros Hl.
  - repeat constructor.
  - apply StronglySorted_cons in Hl as [Hy Hl].
    destruct (key_lt x y) eqn:Hxy.
    + apply StronglySorted_cons. split; [|by apply IH].
      rewrite insert_desc_perm. constructor; [|done].
      apply key_lt_true in Hxy. unfold key_ge. by apply Qlt_le_weak.
    + apply key_lt_false in Hxy.
      apply StronglySorted_cons. split; [|by apply StronglySorted_cons].
      constructor; [done|].
      eapply Forall_impl; [exact Hy|]. intros z Hz. unfold key_ge in *.
      by eapply Qle_trans.
Qed.

Lemma sort_reverse_sorted l : StronglySorted key_ge (sort_reverse l).
Proof.
  induction l as [|x l IH]; simpl; [constructor|]. by apply insert_desc_sorted.
Qed.

Lemma insert_desc_with_key v x l :
  filter (with_key v) (insert_desc x l) = filter (with_key v) (x :: l).
Proof.
  induction l as [|y l IH]; simpl; [done|].
  destruct (key_lt x y) eqn:Hxy; [|done].
  apply key_lt_true in Hxy.
  rewrite (filter_cons _ y), IH, !(filter_cons _ x), !(filter_cons _ y).
  destruct (decide (with_key v y)) as [Hy|Hy]; [|done].
  destruct (decide (with_key v x)) as [Hx|Hx]; [|done].
  unfold with_key in Hx, Hy. apply Qeq_bool_iff in Hx, Hy.
  rewrite Hx, Hy in Hxy. by apply Qlt_irrefl in Hxy.
Qed.

Lemma sort_reverse_with_key v l :
  filter (with_key v) (sort_reverse l) = filter (with_key v) l.
Proof.
  induction l as [|x l IH]; simpl; [done|].
  by rewrite insert_desc_with_key, !filter_cons, IH.
Qed.

End SortFacts.

(** ** Order of occurrence *)

Section Precedes.
Context {A : Type}.
Implicit Types l : list A.

Lemma precedes_sublist a b l : precedes a b l ↔ [a; b] `sublist_of` l.
Proof.
  split.
  - intros (i & j & Hij & Hi & Hj).
    rewrite <- (take_drop_middle l i a Hi).
    apply sublist_inserts_l, sublist_skip, singleton_sublist_l.
    apply list_elem_of_lookup. exists (j - S i)%nat.
    rewrite lookup_drop. rewrite <- Hj. f_equal. lia.
  - intros (k1 & k2 & -> & Hb)%sublist_cons_l.
    apply singleton_sublist_l, list_elem_of_split in Hb as (k3 & k4 & ->).
    exists (length k1), (length k1 + S (length k3))%nat. split_and!.
    + lia.
    + by rewrite list_lookup_middle.
    + rewrite lookup_app_r by lia.
      replace (length k1 + S (length k3) - length k1)%nat with (S (length k3)) by lia.
      simpl. by rewrite list_lookup_middle.
Qed.

Lemma filter_sublist_mono (P : A → Prop) `{!∀ x, Decision (P x)} l1 l2 :
  l1 `sublist_of` l2 → filter P l1 `sublist_of` filter P l2.
Proof.
  induction 1 as [|x l1 l2 _ IH|x l1 l2 _ IH]; [done| |].
  - rewrite !filter_cons. destruct (decide (P x)); [by apply sublist_skip | done].
  - rewrite filter_cons. destruct (decide (P x)); [by apply sublist_cons | done].
Qed.

Lemma sorted_lookup (R : relation A) l i j x y :
  StronglySorted R l → (i < j)%nat → l !! i = Some x → l !! j = Some y → R x y.
Proof.
  intros Hl Hij Hi Hj.
  rewrite <- (take_drop_middle l i x Hi) in Hl.
  apply StronglySorted_app in Hl as (_ & _ & Hl).
  apply StronglySorted_cons in Hl as [Hx _].
  eapply Forall_forall in Hx; [exact Hx|].
  apply list_elem_of_lookup. exists (j - S i)%nat.
  rewrite lookup_drop. rewrite <- Hj. f_equal. lia.
Qed.

End Precedes.

(** ** Substrings across a separator *)

Section ContainsFacts.

Lemma startswith_sep n c y : ∀ x,
  c ∉ n → startswith n (x ++ c :: y) = startswith n x.
Proof.
  induction n as [|a n IH]; intros x Hc; [by destruct x|].
  apply not_elem_of_cons in Hc as [Hac Hc].
  destruct x as [|b x]; simpl.
  - assert ((a =? c) = false) as -> by (apply N.eqb_neq; congruence). done.
  - by rewrite IH.
Qed.

Lemma contains_nil n : n ≠ [] → contains n [] = false.
Proof. by destruct n. Qed.

Lemma contains_sep n c y : ∀ x,
  n ≠ [] → c ∉ n → contains n (x ++ c :: y) = contains n x || contains n y.
Proof.
  intros x Hn Hc. induction x as [|b x IH].
  - rewrite contains_nil by done.
    change (contains n ([] ++ c :: y))
      with (startswith n ([] ++ c :: y) || contains n y).
    rewrite startswith_sep by done. by destruct n.
  - change (contains n ((b :: x) ++ c :: y))
      with (startswith n ((b :: x) ++ c :: y) || contains n (x ++ c :: y)).
    rewrite startswith_sep, IH by done.
    change (contains n (b :: x)) with (startswith n (b :: x) || contains n x).
    by rewrite orb_assoc.
Qed.

Lemma contains_join n c texts :
  n ≠ [] → c ∉ n → contains n (join [c] texts) = existsb (contains n) texts.
Proof.
  intros Hn Hc. induction texts as [|p texts IH]; [by apply contains_nil|].
  destruct texts as [|q texts].
  - simpl. by rewrite orb_false_r.
  - change (join [c] (p :: q :: texts)) with (p ++ c :: join [c] (q :: texts)).
    rewrite contains_sep, IH by done. done.
Qed.

Lemma marker_not_joined texts :
  contains telecom_marker (join (py " ") texts) = existsb (contains telecom_marker) texts.
Proof.
  apply (contains_join telecom_marker 32 texts); [done|].
  unfold telecom_marker. intros [H|[H|H%elem_of_nil]%elem_of_cons]%elem_of_cons; done.
Qed.

End ContainsFacts.

(** ** What the rows yield *)

Section RowFacts.
Context {U : Unicode}.

Lemma column_emits_valid i p s tr e :
  e ∈ column_emits i p s tr →
  dotted_quad (address e) ∧ valid_ip (address e) = true.
Proof.
  unfold column_emits.
  destruct (find_all td_th tr !! p) as [pc|]; [|by intros ?%elem_of_nil].
  destruct (find_all td_th tr !! i) as [ic|]; [|by intros ?%elem_of_nil].
  destruct (find_all td_th tr !! s) as [sc|]; [|by intros ?%elem_of_nil].
  destruct (contains _ _); [|by intros ?%elem_of_nil].
  destruct (re_search _ _ _) as [m|] eqn:Hm; [|by intros ?%elem_of_nil].
  destruct (valid_ip (m_text m)) eqn:Hv; [|by intros ?%elem_of_nil].
  apply search_ip_dotted in Hm.
  destruct (speed_of _) as [[v d]|]; intros ->%list_elem_of_singleton; done.
Qed.

Lemma fallback_emits_valid tr e :
  e ∈ fallback_emits tr →
  dotted_quad (address e) ∧ valid_ip (address e) = true.
Proof.
  unfold fallback_emits.
  destruct (contains _ _); [|by intros ?%elem_of_nil].
  intros (ip & -> & [Hv Hip]%list_elem_of_filter)%list_elem_of_fmap. simpl.
  split; [by eapply findall_ip_dotted | done].
Qed.

Lemma emissions_valid soup e :
  e ∈ emissions soup → dotted_quad (address e) ∧ valid_ip (address e) = true.
Proof.
  unfold emissions. rewrite list_elem_of_In, in_flat_map.
  intros (table & _ & He). unfold table_emits in He.
  destruct (columns_of _) as [[i|] [p|] [s|]]; simpl in He;
    apply in_flat_map in He as (tr & _ & He); apply list_elem_of_In in He;
    eauto using column_emits_valid, fallback_emits_valid.
Qed.

Lemma valid_octet d :
  octet_ok d = true → ∃ v, py_int d = Ok v ∧ (0 ≤ v ≤ 255)%Z.
Proof.
  unfold octet_ok, py_int. destruct (digits_value d) as [n|]; [|done].
  intros Hn%N.leb_le. exists (Z.of_N n). split; [done | lia].
Qed.

(** A valid address, octet by octet. *)
Lemma valid_dotted_quad w :
  dotted_quad w → valid_ip w = true →
  ∃ d1 d2 d3 d4 v1 v2 v3 v4,
    w = d1 ++ [46] ++ d2 ++ [46] ++ d3 ++ [46] ++ d4
    ∧ octet_text d1 ∧ octet_text d2 ∧ octet_text d3 ∧ octet_text d4
    ∧ py_int d1 = Ok v1 ∧ py_int d2 = Ok v2 ∧ py_int d3 = Ok v3 ∧ py_int d4 = Ok v4
    ∧ (0 ≤ v1 ≤ 255)%Z ∧ (0 ≤ v2 ≤ 255)%Z ∧ (0 ≤ v3 ≤ 255)%Z ∧ (0 ≤ v4 ≤ 255)%Z.
Proof.
  intros Hw Hv.
  destruct (dotted_quad_split w Hw) as (d1 & d2 & d3 & d4 & Hs & -> & H1 & H2 & H3 & H4).
  unfold valid_ip in Hv. rewrite Hs in Hv. simpl in Hv.
  rewrite !andb_true_iff in Hv. destruct Hv as (Hv1 & Hv2 & Hv3 & Hv4 & _).
  apply valid_octet in Hv1 as (v1 & ? & ?), Hv2 as (v2 & ? & ?),
                       Hv3 as (v3 & ? & ?), Hv4 as (v4 & ? & ?).
  exists d1, d2, d3, d4, v1, v2, v3, v4. split_and!; first [done | lia].
Qed.

(** A run of [absorb] appends entries of the run, in order. *)
Lemma absorb_appends l st :
  ∃ new, results (foldl absorb st l) = results st ++ new ∧ new `sublist_of` l.
Proof.
  exists (keep_first (seen_ips st) l). split; [apply absorb_results | apply keep_first_sublist].
Qed.

Lemma column_emits_marker_free i p s tr :
  forallb (fun c => negb (contains telecom_marker (get_text [] c))) (find_all td_th tr) = true →
  column_emits i p s tr = [].
Proof.
  intros Hfree. unfold column_emits.
  destruct (find_all td_th tr !! p) as [pc|] eqn:Hp; [|done].
  destruct (find_all td_th tr !! i) as [ic|]; [|done].
  destruct (find_all td_th tr !! s) as [sc|]; [|done].
  rewrite forallb_forall in Hfree.
  specialize (Hfree pc). rewrite <- list_elem_of_In in Hfree.
  rewrite negb_true_iff in Hfree. rewrite Hfree; [done|].
  apply list_elem_of_lookup. by exists p.
Qed.

Lemma fallback_emits_marker_free tr :
  forallb (fun c => negb (contains telecom_marker (get_text [] c))) (find_all td_th tr) = true →
  fallback_emits tr = [].
Proof.
  intros Hfree. unfold fallback_emits. rewrite marker_not_joined.
  assert (existsb (contains telecom_marker) (get_text [] <$> find_all td_th tr) = false) as ->; [|done].
  induction (find_all td_th tr) as [|c l IH]; [done|].
  simpl in *. apply andb_true_iff in Hfree as [Hc Hl].
  apply negb_true_iff in Hc. rewrite Hc. by apply IH.
Qed.

End RowFacts.

(** ** The scenarios of the specification, run on the model *)

Example scenario_columns :
  @extract_telecom_ips sample_tables doc_columns
  = Ok [Entry (py "9.10.11.12") 500 (py "500 Mbps");
        Entry (py "1.2.3.4") 98.4 (py "12.3 MB/s")].
Proof. vm_compute. reflexivity. Qed.

Example scenario_fallback :
  @extract_telecom_ips sample_tables doc_fallback
  = Ok [Entry (py "1.1.1.1") (6800 # 1000) (py "850 KB/s");
        Entry (py "2.2.2.2") (6800 # 1000) (py "850 KB/s")].
Proof. vm_compute. reflexivity. Qed.

Example scenario_unknown_fallback :
  @extract_telecom_ips sample_tables doc_unknown_fallback
  = Ok [Entry (py "7.7.7.7") 0 unknown_label].
Proof. vm_compute. reflexivity. Qed.

Example scenario_repeats :
  @extract_telecom_ips sample_tables doc_repeats
  = Ok [Entry (py "3.3.3.3") 1000 (py "1 Gbps");
        Entry (py "1.2.3.4") 8 (py "8 Mbps");
        Entry (py "2.2.2.2") 8 (py "1 MB/s")].
Proof. vm_compute. reflexivity. Qed.

(** A unit the pattern accepts through case folding only (MB/ſ, with the
    long s) is not one of the six after [lower()]: no answer. *)
Example long_s_unit :
  @_parse_speed_to_mbps sample_tables (py "5 MB/" ++ [383]) = Ok None.
Proof. vm_compute. reflexivity. Qed.

(** The Kelvin sign lowers to k. *)
Example kelvin_unit :
  @_parse_speed_to_mbps sample_tables ([53; 32; 8490] ++ py "bps")
  = Ok (Some (5 # 1000, [53; 32; 8490] ++ py "bps")).
Proof. vm_compute. reflexivity. Qed.

Example findall_boundaries :
  @re_findall sample_tables false ip_regex
    (py "1.2.3.4 a1.2.3.4 1.2.3.4.5 999.1.1.1x 10.0.0.1,1.1.1.1 1.2.3.4_ 1.2.3.4567")
  = [py "1.2.3.4"; py "1.2.3.4"; py "10.0.0.1"; py "1.1.1.1"].
Proof. vm_compute. reflexivity. Qed.

(** An ideograph is a word character: no boundary next to it. *)
Example findall_ideograph :
  @re_findall sample_tables false ip_regex (telecom_marker ++ py "1.2.3.4 5.6.7.8")
  = [py "5.6.7.8"].
Proof. vm_compute. reflexivity. Qed.

(** A quad glued to a letter is not found; the quad that starts one octet
    later, after a dot, is another occurrence. *)
Example findall_overlap :
  @re_findall sample_tables false ip_regex (py "a1.2.3.4.5 1.2.3.4.5.6.7.8")
  = [py "2.3.4.5"; py "1.2.3.4"; py "5.6.7.8"].
Proof. vm_compute. reflexivity. Qed.

(** Addresses glued to a word character are passed over in both modes;
    the one between a colon and a dot is taken. *)
Example scenario_glued_columns :
  @extract_telecom_ips sample_tables doc_glued_columns
  = Ok [Entry (py "5.6.7.8") 5 (py "5 Mbps")].
Proof. vm_compute. reflexivity. Qed.

Example scenario_glued_fallback :
  @extract_telecom_ips sample_tables doc_glued_fallback
  = Ok [Entry (py "5.6.7.8") 5 (py "5 Mbps")].
Proof. vm_compute. reflexivity. Qed.

(** ** Header classification *)

Section HeaderFacts.
Context {U : Unicode}.

Lemma classify_from_spec texts : ∀ cols idx,
  classify_from cols idx texts
  = Columns
      (match ip_col cols with
       | Some j => Some j
       | None => first_from address_rule idx texts
       end)
      (match provider_col cols with
       | Some j => Some j
       | None => first_from provider_rule idx texts
       end)
      (match speed_col cols with
       | Some j => Some j
       | None => first_from speed_rule idx texts
       end).
Proof.
  induction texts as [|t texts IH]; intros [ic pc sc] idx; simpl.
  - by destruct ic, pc, sc.
  - rewrite IH. unfold classify; simpl.
    fold (address_rule t). fold (provider_rule t). fold (speed_rule t).
    destruct ic, pc, sc; simpl;
      destruct (address_rule t), (provider_rule t), (speed_rule t); done.
Qed.

Lemma first_from_earliest rule texts : ∀ idx,
  match first_from rule idx texts with
  | Some k =>
      ∃ i t, k = (idx + i)%nat ∧ texts !! i = Some t ∧ rule t = true
             ∧ ∀ j t', (j < i)%nat → texts !! j = Some t' → rule t' = false
  | None => ∀ t, t ∈ texts → rule t = false
  end.
Proof.
  induction texts as [|t texts IH]; intros idx; simpl.
  - by intros t ?%elem_of_nil.
  - destruct (rule t) eqn:Ht.
    + exists 0%nat, t. split_and!; [lia | done | done | lia].
    + specialize (IH (S idx)). destruct (first_from rule (S idx) texts) as [k|].
      * destruct IH as (i & t' & -> & Hi & Ht' & Hfirst).
        exists (S i), t'. split_and!; [lia | done | done |].
        intros [|j] t'' Hj; simpl; [by intros [= <-] | apply Hfirst; lia].
      * intros t' [->|Hin]%elem_of_cons; [done | by apply IH].
Qed.

Lemma first_from_0_earliest rule texts :
  earliest rule texts (first_from rule 0 texts).
Proof.
  pose proof (first_from_earliest rule texts 0) as H. unfold earliest.
  destruct (first_from rule 0 texts) as [k|]; [|done].
  destruct H as (i & t & -> & Hi & Ht & Hfirst). simpl. split; [by exists t | done].
Qed.

End HeaderFacts.

(** ** Queries on the tree *)

Section TreeFacts.

Lemma find_in_find_all name names n x :
  name ∈ names → find name n = Some x → x ∈ find_all names n.
Proof.
  intros Hname Hx. unfold find in Hx. apply head_Some_elem_of in Hx.
  unfold find_all in *. apply list_elem_of_filter in Hx as [Hx Hd].
  apply list_elem_of_filter. split; [|done].
  destruct x as [|tag kids]; [done|]. simpl in *.
  apply bool_decide_eq_true in Hx. apply list_elem_of_singleton in Hx as ->.
  by apply bool_decide_eq_true.
Qed.

Lemma find_head name n x :
  find name n = Some x → ∃ more, find_all [name] n = x :: more.
Proof.
  unfold find. destruct (find_all [name] n) as [|y more]; [done|].
  intros [= ->]. by exists more.
Qed.

Lemma or_none_nonempty {A} (l : list A) x : x ∈ l → or_none l = Some l.
Proof. destruct l; [by intros ?%elem_of_nil | done]. Qed.

End TreeFacts.

(** ** Word boundaries around an address *)

Section BoundaryFacts.
Context {U : Unicode}.

Lemma octet_text_ends d :
  octet_text d →
  (∃ c, head d = Some c ∧ is_word c = true)
  ∧ (∃ c, last d = Some c ∧ is_word c = true).
Proof.
  intros [Hall Hlen]. split.
  - destruct d as [|c d]; [simpl in Hlen; lia|].
    exists c. split; [done|]. apply isdecimal_is_word. by inversion Hall.
  - destruct d as [|c d] using rev_ind; [simpl in Hlen; lia|].
    exists c. rewrite last_snoc. split; [done|]. apply isdecimal_is_word.
    apply Forall_app in Hall as [_ Hc]. by inversion Hc.
Qed.

Lemma dotted_quad_ends w :
  dotted_quad w →
  (∃ c, head w = Some c ∧ is_word c = true)
  ∧ (∃ c, last w = Some c ∧ is_word c = true).
Proof.
  intros (d1 & d2 & d3 & d4 & -> & H1 & _ & _ & H4).
  apply octet_text_ends in H1 as [(c1 & Hc1 & Hw1) _].
  apply octet_text_ends in H4 as [_ (c4 & Hc4 & Hw4)].
  split.
  - exists c1. split; [|done]. destruct d1; [done|]. done.
  - exists c4. split; [|done].
    rewrite !app_assoc, last_app_cons_some. by rewrite Hc4.
Qed.

Lemma ip_match_at s1 s2 m :
  match_at false ip_regex (cursor_at s1 s2) = Some m →
  ∃ after,
    s2 = m_text m ++ after
    ∧ m_start m = length s1
    ∧ m_end m = (length s1 + length (m_text m))%nat
    ∧ dotted_quad (m_text m)
    ∧ word_at (last s1) = false
    ∧ word_at (head after) = false.
Proof.
  intros H. apply match_at_sound in H as (cur' & w & Hm & Hw & Hs & He & ->).
  apply ip_matches in Hm as (Hb & Hb' & _ & w' & Hw' & Hq).
  assert (w' = w) as -> by (by rewrite <- (reads_text _ _ _ Hw), (reads_text _ _ _ Hw')).
  destruct Hw as (Hrest & Hpos & Hprev). simpl in Hrest, Hpos, Hprev.
  destruct (dotted_quad_ends w Hq) as [(c1 & Hc1 & Hw1) (c4 & Hc4 & Hw4)].
  exists (rest cur'). split_and!; try done.
  - by rewrite He, Hpos.
  - unfold at_boundary in Hb. simpl in Hb. rewrite Hrest in Hb.
    assert (head (w ++ rest cur') = Some c1) as Hh by (destruct w; [done | done]).
    rewrite Hh in Hb. simpl in Hb. rewrite Hw1 in Hb.
    by destruct (word_at (last s1)).
  - unfold at_boundary in Hb'. rewrite Hprev, Hc4 in Hb'. simpl in Hb'.
    rewrite Hw4 in Hb'. by destruct (word_at (head (rest cur'))).
Qed.

End BoundaryFacts.

(** Every occurrence the address pattern finds, by [search] or by
    [finditer], is a dotted quad with no word character right before it
    and none right after it, at the offsets the match reports. *)
Lemma address_between_boundaries {U : Unicode} (text : list N) (m : rmatch) :
  re_search false ip_regex text = Some m ∨ m ∈ re_finditer false ip_regex text →
  ∃ before after,
    text = before ++ m_text m ++ after
    ∧ m_start m = length before
    ∧ m_end m = (length before + length (m_text m))%nat
    ∧ dotted_quad (m_text m)
    ∧ word_at (last before) = false
    ∧ word_at (head after) = false.
Proof.
  intros H.
  assert (∃ s1 s2, text = s1 ++ s2
                   ∧ match_at false ip_regex (cursor_at s1 s2) = Some m)
    as (s1 & s2 & -> & Hm)
    by (destruct H as [H|H]; [by apply re_search_sound | by apply re_finditer_sound]).
  apply ip_match_at in Hm as (after & -> & Hs & He & Hq & Hb & Ha).
  by exists s1, after.
Qed.

(** The address of "ip 10.0.0.1, ok": a blank before, a comma after. *)
Lemma address_between_boundaries_sample :
  ∃ before after,
    py "ip 10.0.0.1, ok" = before ++ py "10.0.0.1" ++ after
    ∧ 3%nat = length before
    ∧ 11%nat = (length before + length (py "10.0.0.1"))%nat
    ∧ @dotted_quad sample_tables (py "10.0.0.1")
    ∧ @word_at sample_tables (last before) = false
    ∧ @word_at sample_tables (head after) = false.
Proof.
  apply (@address_between_boundaries sample_tables (py "ip 10.0.0.1, ok")
           (Match 3 11 (py "10.0.0.1") [])).
  left. vm_compute. reflexivity.
Defined.

(** ** The accumulators *)

Section Accumulators.

Lemma absorb_consistent st e : consistent st → consistent (absorb st e).
Proof.
  intros [Hseen Hnd]. unfold absorb. case_bool_decide as Hin; [done|].
  split; simpl.
  - rewrite fmap_app, list_to_set_app_L, <- Hseen. simpl.
    rewrite (right_id_L ∅ (∪)). apply (comm_L (∪)).
  - rewrite fmap_app. apply NoDup_app. split_and!; [done | | apply NoDup_singleton].
    intros a Ha ->%list_elem_of_singleton. apply Hin.
    rewrite Hseen. by apply elem_of_list_to_set.
Qed.

Lemma absorb_all_consistent l : ∀ st, consistent st → consistent (foldl absorb st l).
Proof.
  induction l as [|e l IH]; intros st Hst; simpl; [done|].
  by apply IH, absorb_consistent.
Qed.

Lemma absorb_all_prefix l st : results st `prefix_of` results (foldl absorb st l).
Proof. rewrite absorb_results. by eexists. Qed.

Lemma absorb_seen_mono st e a : a ∈ seen_ips st → a ∈ seen_ips (absorb st e).
Proof.
  intros Ha. unfold absorb. case_bool_decide; [done|]. simpl.
  apply elem_of_union. by right.
Qed.

Lemma absorb_all_seen_mono l : ∀ st a,
  a ∈ seen_ips st → a ∈ seen_ips (foldl absorb st l).
Proof.
  induction l as [|e l IH]; intros st a Ha; simpl; [done|].
  by apply IH, absorb_seen_mono.
Qed.

(** After a run of [absorb] every address of the run is in the set. *)
Lemma absorb_all_sees l : ∀ st e,
  e ∈ l → address e ∈ seen_ips (foldl absorb st l).
Proof.
  induction l as [|x l IH]; intros st e; [by intros ?%elem_of_nil|].
  simpl. intros [->|He]%elem_of_cons; [|by apply IH].
  apply absorb_all_seen_mono. unfold absorb. case_bool_decide; [done|]. simpl.
  apply elem_of_union. left. by apply elem_of_singleton.
Qed.

(** Entries whose addresses are all in the set change nothing. *)
Lemma absorb_all_seen_again l : ∀ st,
  (∀ e, e ∈ l → address e ∈ seen_ips st) → foldl absorb st l = st.
Proof.
  induction l as [|x l IH]; intros st Hall; simpl; [done|].
  assert (absorb st x = st) as ->.
  { unfold absorb. rewrite bool_decide_eq_true_2; [done|].
    apply Hall, list_elem_of_here. }
  apply IH. intros e He. by apply Hall, list_elem_of_further.
Qed.

End Accumulators.

(** ** Where the addresses come from *)

Section Provenance.
Context {U : Unicode}.

Lemma match_at_inside ic r s1 s2 m :
  match_at ic r (cursor_at s1 s2) = Some m → ∃ after, s2 = m_text m ++ after.
Proof.
  intros H. apply match_at_sound in H as (cur' & w & _ & (Hrest & _) & _ & _ & ->).
  by exists (rest cur').
Qed.

Lemma search_inside ic r text m :
  re_search ic r text = Some m → ∃ before after, text = before ++ m_text m ++ after.
Proof.
  intros H. apply re_search_sound in H as (s1 & s2 & -> & H).
  apply match_at_inside in H as [after ->]. by exists s1, after.
Qed.

Lemma findall_inside ic r text w :
  w ∈ re_findall ic r text → ∃ before after, text = before ++ w ++ after.
Proof.
  unfold re_findall. intros (m & -> & H)%list_elem_of_fmap.
  apply re_finditer_sound in H as (s1 & s2 & -> & H).
  apply match_at_inside in H as [after ->]. by exists s1, after.
Qed.

Lemma column_emits_found i p s tr e :
  e ∈ column_emits i p s tr → found_in tr e.
Proof.
  unfold column_emits.
  destruct (find_all td_th tr !! p) as [pc|] eqn:Hp; [|by intros ?%elem_of_nil].
  destruct (find_all td_th tr !! i) as [ic|] eqn:Hi; [|by intros ?%elem_of_nil].
  destruct (find_all td_th tr !! s) as [sc|]; [|by intros ?%elem_of_nil].
  destruct (contains _ _) eqn:Hmark; [|by intros ?%elem_of_nil].
  destruct (re_search _ _ _) as [m|] eqn:Hm; [|by intros ?%elem_of_nil].
  destruct (valid_ip (m_text m)); [|by intros ?%elem_of_nil].
  apply search_inside in Hm as (before & after & Htext).
  assert (address e = m_text m → found_in tr e) as Hfound.
  { intros Heq. unfold found_in. rewrite Heq. split.
    - exists pc. split; [|done]. apply list_elem_of_lookup. by exists p.
    - exists (get_text (py " ") ic), before, after. split; [|done].
      unfold scanned_texts. apply list_elem_of_further, list_elem_of_fmap.
      exists ic. split; [done|]. apply list_elem_of_lookup. by exists i. }
  destruct (speed_of _) as [[v d]|]; intros ->%list_elem_of_singleton; by apply Hfound.
Qed.

Lemma fallback_emits_found tr e :
  e ∈ fallback_emits tr → found_in tr e.
Proof.
  unfold fallback_emits.
  destruct (contains _ _) eqn:Hmark; [|by intros ?%elem_of_nil].
  intros (ip & -> & [_ Hip]%list_elem_of_filter)%list_elem_of_fmap. simpl.
  rewrite marker_not_joined in Hmark. apply existsb_exists in Hmark as (t & Ht & Hmark).
  apply list_elem_of_In, list_elem_of_fmap in Ht as (cell & -> & Hcell).
  split; [by exists cell|].
  apply findall_inside in Hip as (before & after & Htext).
  eexists _, before, after. split; [apply list_elem_of_here | exact Htext].
Qed.

Lemma emissions_found soup e :
  e ∈ emissions soup →
  ∃ table tr, table ∈ find_all [py "table"] soup
              ∧ tr ∈ body_rows_of table (header_cells_of table)
              ∧ found_in tr e.
Proof.
  unfold emissions. rewrite list_elem_of_In, in_flat_map.
  intros (table & Htable%list_elem_of_In & He). exists table.
  unfold table_emits in He.
  destruct (columns_of _) as [[i|] [p|] [s|]]; simpl in He;
    apply in_flat_map in He as (tr & Htr%list_elem_of_In & He%list_elem_of_In);
    exists tr; eauto using column_emits_found, fallback_emits_found.
Qed.

End Provenance.

(** ** Values and displays of speeds *)

Section SpeedValues.
Context {U : Unicode}.

Lemma py_float_nonneg w v : py_float w = Ok v → (0 <= v)%Q.
Proof.
  unfold py_float. destruct (split_on 46 w) as [|i [|f [|]]]; try done.
  - destruct (digits_value i) as [a|]; [|done]. intros [= <-].
    unfold Qle; simpl. lia.
  - destruct (digits_value i) as [a|]; [|done].
    destruct (digits_value f) as [b|]; [|done]. intros [= <-].
    unfold Qle; simpl. nia.
Qed.

Lemma decimal_display_char c : isdecimal c = true → display_char c.
Proof.
  unfold isdecimal, decimal_value, display_char. intros H Hc. rewrite Hc in H.
  by destruct (ascii_digit c).
Qed.

Lemma letter_display_char l x :
  ascii_letter l = true → lit_matches true l x = true → display_char x.
Proof.
  unfold lit_matches, display_char. intros Hl Hm Hx.
  rewrite Hl, Hx in Hm. simpl in Hm. apply N.eqb_eq in Hm.
  assert (ascii_letter x = true) as ->; [|by rewrite orb_true_r].
  clear Hx. revert Hl Hm.
  unfold ascii_letter, ascii_tolower, ascii_upper, ascii_lower.
  destruct (N.leb_spec 65 x), (N.leb_spec x 90), (N.leb_spec 97 x), (N.leb_spec x 122),
           (N.leb_spec 65 l), (N.leb_spec l 90), (N.leb_spec 97 l), (N.leb_spec l 122);
    simpl; intros Hl Hm; try done; exfalso; lia.
Qed.

Lemma decimal_text_display w : decimal_text w → Forall display_char w.
Proof.
  assert (Hrun : ∀ r, digit_run r → Forall display_char r).
  { intros r [Hr _]. eapply Forall_impl; [exact Hr|]. apply decimal_display_char. }
  intros [Hw | (i & f & -> & Hi & Hf)]; [by apply Hrun|].
  apply Forall_app. split; [by apply Hrun|].
  apply Forall_cons. split; [done | by apply Hrun].
Qed.

Lemma unit_text_display u : unit_text u → Forall display_char u.
Proof.
  intros (name & Hname & Hall).
  assert (Hchars : forallb (fun l => ascii_letter l || (l =? 47)) name = true).
  { apply list_elem_of_In in Hname. simpl in Hname.
    destruct Hname as [<-|[<-|[<-|[<-|[<-|[<-|[]]]]]]]; reflexivity. }
  clear Hname. induction Hall as [|l x name u Hx _ IH]; [constructor|].
  simpl in Hchars. apply andb_true_iff in Hchars as [Hl Hchars].
  constructor; [|by apply IH].
  apply orb_true_iff in Hl as [Hl|Hl]; [by eapply letter_display_char|].
  apply N.eqb_eq in Hl as ->. simpl in Hx. apply N.eqb_eq in Hx as ->. done.
Qed.

Lemma parse_display text q d :
  _parse_speed_to_mbps text = Ok (Some (q, d)) → Forall display_char d ∧ d ≠ [].
Proof.
  unfold _parse_speed_to_mbps.
  destruct (re_search true speed_regex text) as [m|] eqn:Hs; [|done].
  apply speed_search in Hs as (b & num & ws & unit & a & _ & Hnum & _ & Hunit & -> & -> & _).
  destruct (py_float num) as [v|]; [|done].
  change (result_bind _ _ ?f (Ok ?a)) with (f a). cbn beta zeta.
  assert (Hd : Forall display_char (num ++ py " " ++ unit) ∧ num ++ py " " ++ unit ≠ []).
  { split.
    - apply Forall_app. split; [by apply decimal_text_display|].
      apply Forall_cons. split; [done | by apply unit_text_display].
    - by destruct num. }
  repeat case_decide; intros [= _ <-]; done.
Qed.

Lemma display_char_not c w :
  is_ascii c = true →
  ascii_digit c || ascii_letter c || (c =? 46) || (c =? 47) || (c =? 32) = false →
  Forall display_char w → c ∉ w.
Proof.
  intros Hc Hno Hall Hin. eapply Forall_forall in Hall; [|exact Hin].
  specialize (Hall Hc). congruence.
Qed.

Lemma digit_run_has_digit w : digit_run w → ∃ c, c ∈ w ∧ isdecimal c = true.
Proof.
  intros [Hall Hne]. destruct w as [|c w]; [done|].
  exists c. split; [apply list_elem_of_here | by inversion Hall].
Qed.

End SpeedValues.

(** ** Lines *)

Section Lines.
Context {U : Unicode}.

Lemma line_address_blank w more :
  Forall (fun c => c ≠ 32) w → line_address (w ++ 32 :: more) = w.
Proof.
  induction 1 as [|c w Hc _ IH]; simpl; [done|].
  apply N.eqb_neq in Hc. by rewrite Hc, IH.
Qed.

Lemma dotted_quad_no_blank w : dotted_quad w → Forall (fun c => c ≠ 32) w.
Proof.
  assert (Hrun : ∀ d, octet_text d → Forall (fun c => c ≠ 32) d).
  { intros d [Hd _]. eapply Forall_impl; [exact Hd|].
    intros c Hc ->. by vm_compute in Hc. }
  intros (d1 & d2 & d3 & d4 & -> & H1 & H2 & H3 & H4).
  repeat (apply Forall_app; split); first [by apply Hrun | by repeat constructor].
Qed.

Lemma line_address_format e :
  dotted_quad (address e) → line_address (format_line e) = address e.
Proof.
  intros Hq. unfold format_line.
  change (py "  Cloudflare-") with (32 :: py " Cloudflare-").
  rewrite <- app_comm_cons. by apply line_address_blank, dotted_quad_no_blank.
Qed.

Lemma split_lines lines :
  lines ≠ [] → Forall (fun l => 10 ∉ l) lines →
  split_on 10 (join newline lines ++ newline) = lines ++ [[]].
Proof.
  assert (Hne : ∀ l : list N, 10 ∉ l → Forall (fun x => x ≠ 10) l).
  { intros l Hl. apply Forall_forall. intros x Hx ->. done. }
  induction lines as [|p lines IH]; [done|]. intros _ Hall.
  apply Forall_cons in Hall as [Hp Hall]. destruct lines as [|q lines].
  - change (join newline [p] ++ newline) with (p ++ 10 :: []).
    by rewrite split_on_app by (by apply Hne).
  - change (join newline (p :: q :: lines))
      with (p ++ 10 :: join newline (q :: lines)).
    rewrite <- app_assoc, <- app_comm_cons, split_on_app by (by apply Hne).
    by rewrite IH.
Qed.

End Lines.

(** ** Header positions *)

Section HeaderBounds.

Lemma first_from_bound rule texts i :
  first_from rule 0 texts = Some i → (i < length texts)%nat.
Proof.
  intros H. pose proof (first_from_earliest rule texts 0) as Hspec.
  rewrite H in Hspec. destruct Hspec as (j & t & -> & Hj & _).
  apply lookup_lt_Some in Hj. lia.
Qed.

End HeaderBounds.

(** ** The run of [main] *)

Section MainFacts.
Context {U : Unicode}.

Lemma main_run get parse write :
  main get parse write
  = match fetch_html get TARGET_URL with
    | (reqs, Fails e) => Ok (Run 1 [msg_fetch_failed ++ e] reqs [])
    | (reqs, Returns html) =>
        let items := sort_reverse (discovered (parse html)) in
        if negb (nonempty items) then Ok (Run 2 [msg_nothing_found] reqs [])
        else
          let text := join newline (format_line <$> items) ++ newline in
          match write (py "dx.txt") text with
          | Some e => Ok (Run 3 [msg_write_failed ++ e] reqs [text])
          | None => Ok (Run 0 (format_line <$> items) reqs [text])
          end
    end.
Proof.
  unfold main. destruct (fetch_html get TARGET_URL) as [reqs [html|e]]; [|done].
  by rewrite extract_telecom_ips_spec.
Qed.

Lemma returned_addresses soup :
  NoDup (address <$> sort_reverse (discovered soup))
  ∧ Forall (fun e => dotted_quad (address e)) (sort_reverse (discovered soup)).
Proof.
  split.
  - rewrite sort_reverse_perm. apply keep_first_NoDup.
  - apply Forall_forall. intros e He. rewrite sort_reverse_perm in He.
    eapply elem_of_sublist in He; [|apply keep_first_sublist].
    by apply emissions_valid in He as [Hq _].
Qed.

End MainFacts.

(** ** Units in ASCII *)

Section AsciiUnits.
Context {U : Unicode}.




End AsciiUnits.

(** ** The addresses of a row stand between word boundaries *)

Section FreeStanding.
Context {U : Unicode}.

Lemma search_ip_free text m :
  re_search false ip_regex text = Some m →
  dotted_quad (m_text m) ∧ free_standing (m_text m) text.
Proof.
  intros H. apply re_search_sound in H as (s1 & s2 & -> & H).
  apply ip_match_at in H as (after & -> & _ & _ & Hq & Hb & Ha).
  split; [done|]. by exists s1, after.
Qed.

Lemma findall_ip_free text w :
  w ∈ re_findall false ip_regex text → dotted_quad w ∧ free_standing w text.
Proof.
  unfold re_findall. intros (m & -> & H)%list_elem_of_fmap.
  apply re_finditer_sound in H as (s1 & s2 & -> & H).
  apply ip_match_at in H as (after & -> & _ & _ & Hq & Hb & Ha).
  split; [done|]. by exists s1, after.
Qed.

Lemma free_standing_not_glued w text :
  free_standing w text → glued w text → False.
Proof.
  intros (before & after & Heq & Hb & Ha) Hglued.
  destruct (Hglued before after Heq); congruence.
Qed.

Lemma column_emits_free i p s tr e :
  e ∈ column_emits i p s tr →
  ∃ ip_cell,
    find_all td_th tr !! i = Some ip_cell
    ∧ dotted_quad (address e)
    ∧ free_standing (address e) (get_text (py " ") ip_cell).
Proof.
  unfold column_emits.
  destruct (find_all td_th tr !! p) as [pc|]; [|by intros ?%elem_of_nil].
  destruct (find_all td_th tr !! i) as [ic|]; [|by intros ?%elem_of_nil].
  destruct (find_all td_th tr !! s) as [sc|]; [|by intros ?%elem_of_nil].
  destruct (contains _ _); [|by intros ?%elem_of_nil].
  destruct (re_search _ _ _) as [m|] eqn:Hm; [|by intros ?%elem_of_nil].
  destruct (valid_ip (m_text m)); [|by intros ?%elem_of_nil].
  apply search_ip_free in Hm as [Hq Hfree].
  destruct (speed_of _) as [[v d]|]; intros ->%list_elem_of_singleton;
    by exists ic.
Qed.

Lemma fallback_emits_free tr e :
  e ∈ fallback_emits tr →
  dotted_quad (address e)
  ∧ free_standing (address e) (join (py " ") (get_text [] <$> find_all td_th tr)).
Proof.
  unfold fallback_emits.
  destruct (contains _ _); [|by intros ?%elem_of_nil].
  intros (ip & -> & [_ Hip]%list_elem_of_filter)%list_elem_of_fmap. simpl.
  by apply findall_ip_free.
Qed.

Lemma emissions_free soup e :
  e ∈ emissions soup →
  ∃ table tr text,
    table ∈ find_all [py "table"] soup
    ∧ tr ∈ body_rows_of table (header_cells_of table)
    ∧ text ∈ scanned_texts tr
    ∧ free_standing (address e) text.
Proof.
  unfold emissions. rewrite list_elem_of_In, in_flat_map.
  intros (table & Htable%list_elem_of_In & He). exists table.
  unfold table_emits in He.
  destruct (columns_of _) as [[i|] [p|] [s|]]; simpl in He;
    apply in_flat_map in He as (tr & Htr%list_elem_of_In & He%list_elem_of_In);
    exists tr;
    try (apply fallback_emits_free in He as [_ Hfree];
         eexists; split_and!; [done | done | apply list_elem_of_here | done]).
  apply column_emits_free in He as (ic & Hic & _ & Hfree).
  exists (get_text (py " ") ic). split_and!; try done.
  unfold scanned_texts. apply list_elem_of_further, list_elem_of_fmap.
  exists ic. split; [done|]. apply list_elem_of_lookup. by exists i.
Qed.

End FreeStanding.

(** * The claims *)

(** C1. Across a full run on any document the addresses of the returned
    entries are pairwise distinct; an address discovered more than once
    (across tables, rows and matches within a row) keeps the speed of its
    first discovery in emission order, and every later occurrence is
    dropped whatever its speed: each returned entry is the first entry of
    the candidate stream with its address, and every address of the stream
    is returned. *)
Theorem first_discovery_wins {U : Unicode} (soup : node) :
  ∃ res, extract_telecom_ips soup = Ok res
    ∧ NoDup (address <$> res)
    ∧ (∀ r, r ∈ res →
         ∃ i, emissions soup !! i = Some r
              ∧ ∀ j e, (j < i)%nat → emissions soup !! j = Some e →
                       address e ≠ address r)
    ∧ (∀ e, e ∈ emissions soup → ∃ r, r ∈ res ∧ address r = address e).
Proof.
  exists (sort_reverse (discovered soup)).
  split; [apply extract_telecom_ips_spec|]. split_and!.
  - rewrite sort_reverse_perm. apply keep_first_NoDup.
  - intros r Hr. rewrite sort_reverse_perm in Hr.
    by apply keep_first_elem in Hr as [_ Hr].
  - intros e He. destruct (keep_first_covers (emissions soup) ∅ e He) as (r & Hr & Heq).
    + apply not_elem_of_empty.
    + exists r. split; [|done]. by rewrite sort_reverse_perm.
Qed.

(** C2. The returned list is the discovery list stably sorted by mbps,
    largest first: of two returned entries the one with the larger mbps
    comes first, and two entries with equal mbps come in the order of
    their discovery; nothing else decides the order. *)
Theorem result_sorted_stable {U : Unicode} (soup : node) :
  ∃ res, extract_telecom_ips soup = Ok res
    ∧ res ≡ₚ discovered soup
    ∧ (∀ a b, a ∈ res → b ∈ res → (mbps b < mbps a)%Q → precedes a b res)
    ∧ (∀ a b, precedes a b res → (mbps a == mbps b)%Q →
              precedes a b (discovered soup)).
Proof.
  exists (sort_reverse (discovered soup)).
  split; [apply extract_telecom_ips_spec|]. split_and!.
  - apply sort_reverse_perm.
  - intros a b [i Hi]%list_elem_of_lookup [j Hj]%list_elem_of_lookup Hlt.
    destruct (lt_eq_lt_dec i j) as [[Hij| ->]|Hji].
    + by exists i, j.
    + rewrite Hi in Hj. injection Hj as ->. by apply Qlt_irrefl in Hlt.
    + pose proof (sorted_lookup key_ge _ j i b a
                    (sort_reverse_sorted _) Hji Hj Hi) as Hge.
      unfold key_ge in Hge. by apply Qlt_not_le in Hlt.
  - intros a b Hab Heq. apply precedes_sublist. apply precedes_sublist in Hab.
    apply (filter_sublist_mono (with_key (mbps a))) in Hab.
    rewrite sort_reverse_with_key in Hab.
    assert (Hf : filter (with_key (mbps a)) [a; b] = [a; b]).
    { rewrite !filter_cons, filter_nil.
      rewrite decide_True by (unfold with_key; apply Qeq_bool_iff; reflexivity).
      rewrite decide_True by (unfold with_key; apply Qeq_bool_iff; by symmetry).
      done. }
    rewrite Hf in Hab. etrans; [exact Hab|]. apply sublist_filter.
Qed.



(** C4, as the code has it.  An entry whose speed text holds no speed
    expression has mbps 0.  Its display is the label 未知 in fallback mode;
    in column mode it is the text of the speed cell, and the label only
    when that text is empty ([speed_text or "未知"], line 123). *)
Theorem unknown_speed_entry {U : Unicode} (tr : node) (st : state) :
  (∀ i p s, ∃ st' new,
      column_row i p s tr st = Ok (tt, st')
      ∧ results st' = results st ++ new
      ∧ ∀ e, e ∈ new →
          ∃ speed_cell,
            find_all td_th tr !! s = Some speed_cell
            ∧ (_parse_speed_to_mbps (get_text (py " ") speed_cell) = Ok None →
               mbps e = 0%Q
               ∧ display e = if nonempty (get_text (py " ") speed_cell)
                             then get_text (py " ") speed_cell
                             else unknown_label))
  ∧ (∃ st' new,
      fallback_row tr st = Ok (tt, st')
      ∧ results st' = results st ++ new
      ∧ ∀ e, e ∈ new →
          _parse_speed_to_mbps (join (py " ") (get_text [] <$> find_all td_th tr)) = Ok None →
          mbps e = 0%Q ∧ display e = unknown_label).
Proof.
  split.
  - intros i p s.
    destruct (absorb_appends (column_emits i p s tr) st) as (new & Hres & Hsub).
    exists (foldl absorb st (column_emits i p s tr)), new.
    split_and!; [apply column_row_emits | done |].
    intros e He. eapply elem_of_sublist in He; [|exact Hsub].
    unfold column_emits in He.
    destruct (find_all td_th tr !! p) as [pc|]; [|by apply elem_of_nil in He].
    destruct (find_all td_th tr !! i) as [ic|]; [|by apply elem_of_nil in He].
    destruct (find_all td_th tr !! s) as [sc|]; [|by apply elem_of_nil in He].
    exists sc. split; [done|]. intros Hnone.
    destruct (contains _ _); [|by apply elem_of_nil in He].
    destruct (re_search _ _ _) as [m|]; [|by apply elem_of_nil in He].
    destruct (valid_ip _); [|by apply elem_of_nil in He].
    unfold speed_of in He. rewrite Hnone in He.
    by apply list_elem_of_singleton in He as ->.
  - destruct (absorb_appends (fallback_emits tr) st) as (new & Hres & Hsub).
    exists (foldl absorb st (fallback_emits tr)), new.
    split_and!; [apply fallback_row_emits | done |].
    intros e He Hnone. eapply elem_of_sublist in He; [|exact Hsub].
    unfold fallback_emits in He.
    destruct (contains _ _); [|by apply elem_of_nil in He].
    unfold speed_of in He. rewrite Hnone in He. simpl in He.
    by apply list_elem_of_fmap in He as (ip & -> & _).
Qed.

(** C4, as stated, fails in column mode: the speed cell "fast" holds no
    speed expression, and the entry of the row displays "fast", not the
    label; the same row in fallback mode displays the label. *)
Lemma unknown_speed_column_shows_cell :
  @_parse_speed_to_mbps sample_tables (py "fast") = Ok None
  ∧ @extract_telecom_ips sample_tables doc_unknown_column
    = Ok [Entry (py "7.7.7.7") 0 (py "fast")]
  ∧ @extract_telecom_ips sample_tables doc_unknown_fallback
    = Ok [Entry (py "7.7.7.7") 0 unknown_label]
  ∧ py "fast" ≠ unknown_label.
Proof. split_and!; [vm_compute; reflexivity .. | discriminate]. Qed.

(** C5. On every document the function returns (it never raises), and
    every returned address is a dotted quad, four runs of one to three
    digits between dots, each of which [int] reads as a number from 0 to
    255: a quad with an octet out of range never gets into the list. *)
Theorem addresses_in_range {U : Unicode} (soup : node) :
  ∃ res, extract_telecom_ips soup = Ok res
    ∧ ∀ r, r ∈ res →
        ∃ d1 d2 d3 d4 v1 v2 v3 v4,
          address r = d1 ++ [46] ++ d2 ++ [46] ++ d3 ++ [46] ++ d4
          ∧ octet_text d1 ∧ octet_text d2 ∧ octet_text d3 ∧ octet_text d4
          ∧ py_int d1 = Ok v1 ∧ py_int d2 = Ok v2
          ∧ py_int d3 = Ok v3 ∧ py_int d4 = Ok v4
          ∧ (0 ≤ v1 ≤ 255)%Z ∧ (0 ≤ v2 ≤ 255)%Z
          ∧ (0 ≤ v3 ≤ 255)%Z ∧ (0 ≤ v4 ≤ 255)%Z.
Proof.
  exists (sort_reverse (discovered soup)).
  split; [apply extract_telecom_ips_spec|].
  intros r Hr. rewrite sort_reverse_perm in Hr.
  eapply elem_of_sublist in Hr; [|apply keep_first_sublist].
  apply emissions_valid in Hr as [Hq Hv]. by apply valid_dotted_quad.
Qed.

(** C6. A body row none of whose cell texts contains 电信 leaves the
    accumulators as they are, in column mode and in fallback mode: no
    address of the row gets into the result, whatever the row holds. *)
Theorem row_without_marker {U : Unicode} (i p s : nat) (tr : node) (st : state) :
  forallb (fun c => negb (contains telecom_marker (get_text [] c)))
          (find_all td_th tr) = true →
  column_row i p s tr st = Ok (tt, st) ∧ fallback_row tr st = Ok (tt, st).
Proof.
  intros Hfree. split.
  - by rewrite column_row_emits, column_emits_marker_free.
  - by rewrite fallback_row_emits, fallback_emits_marker_free.
Qed.

(** The row [5.6.7.8 | 联通 | 20 MB/s] of the specification's scenario. *)
Lemma row_without_marker_unicom :
  @column_row sample_tables 0 1 2 row_unicom st0 = Ok (tt, st0)
  ∧ @fallback_row sample_tables row_unicom st0 = Ok (tt, st0).
Proof. apply (@row_without_marker sample_tables 0 1 2 row_unicom st0). reflexivity. Defined.

(** C7, as the code has it.  Each role (address, provider, speed) goes to
    the earliest header cell that satisfies its keyword rule, or stays
    unset when no cell does, and a role that is set is never set again.
    The three tests are independent: one cell can satisfy several rules,
    and then the roles share its index. *)
Theorem header_roles_earliest {U : Unicode} (headers_text : list (list N)) :
  (earliest address_rule headers_text
     (ip_col (classify_from (Columns None None None) 0 headers_text))
   ∧ earliest provider_rule headers_text
       (provider_col (classify_from (Columns None None None) 0 headers_text))
   ∧ earliest speed_rule headers_text
       (speed_col (classify_from (Columns None None None) 0 headers_text)))
  ∧ (∀ cols idx,
       keeps (ip_col cols) (ip_col (classify_from cols idx headers_text))
       ∧ keeps (provider_col cols) (provider_col (classify_from cols idx headers_text))
       ∧ keeps (speed_col cols) (speed_col (classify_from cols idx headers_text))).
Proof.
  split.
  - rewrite classify_from_spec. simpl. split_and!; apply first_from_0_earliest.
  - intros cols idx. rewrite classify_from_spec. simpl.
    unfold keeps. split_and!; by intros j ->.
Qed.

(** C7, as stated, fails: in the header [IP speed | ISP] the first cell
    satisfies the address rule and the speed rule, and both roles get
    index 0. *)
Lemma header_roles_can_share_index :
  @classify_from sample_tables (Columns None None None) 0 header_shared
  = Columns (Some 0%nat) (Some 1%nat) (Some 0%nat).
Proof. vm_compute. reflexivity. Qed.

(** C8, as the code has it.  In column mode a body row is skipped for its
    width exactly when it has no more cells than the highest column index
    (line 103): such a row leaves the accumulators as they are, a row with
    exactly that many cells included; a row with more cells has the three
    cells the mode reads. *)
Theorem narrow_rows_skipped {U : Unicode} (i p s : nat) (tr : node) (st : state) :
  (too_narrow i p s (find_all td_th tr) = true
   ↔ (length (find_all td_th tr) ≤ Nat.max i (Nat.max p s))%nat)
  ∧ ((length (find_all td_th tr) ≤ Nat.max i (Nat.max p s))%nat →
     column_row i p s tr st = Ok (tt, st))
  ∧ ((Nat.max i (Nat.max p s) < length (find_all td_th tr))%nat →
     too_narrow i p s (find_all td_th tr) = false
     ∧ ∃ provider_cell ip_cell speed_cell,
         find_all td_th tr !! p = Some provider_cell
         ∧ find_all td_th tr !! i = Some ip_cell
         ∧ find_all td_th tr !! s = Some speed_cell).
Proof.
  split_and!.
  - apply too_narrow_spec.
  - intros Hle. apply too_narrow_spec in Hle. unfold column_row. by rewrite Hle.
  - intros Hlt. split.
    + destruct (too_narrow _ _ _ _) eqn:Hw; [|done].
      apply too_narrow_spec in Hw. lia.
    + destruct (lookup_lt_is_Some_2 (find_all td_th tr) p) as [pc Hp]; [lia|].
      destruct (lookup_lt_is_Some_2 (find_all td_th tr) i) as [ic Hi]; [lia|].
      destruct (lookup_lt_is_Some_2 (find_all td_th tr) s) as [sc Hs]; [lia|].
      by exists pc, ic, sc.
Qed.

(** C8, as stated, fails: with the columns 0, 1 and 2 a row of two cells
    has as many cells as the highest index, and it is skipped for its
    width. *)
Lemma width_equal_to_index_is_skipped :
  length (find_all td_th row_two_cells) = Nat.max 0 (Nat.max 1 2)
  ∧ too_narrow 0 1 2 (find_all td_th row_two_cells) = true
  ∧ @column_row sample_tables 0 1 2 row_two_cells st0 = Ok (tt, st0).
Proof. split_and!; vm_compute; reflexivity. Qed.

(** C9, as the code has it.  In a table without [thead] whose first row
    holds a [th] cell, the cells of that row are the header cells.  When
    the table has no [tbody] either, the body rows are all rows but that
    first one; when it has a [tbody], the body rows are the rows of the
    [tbody], all of them (lines 89-90). *)
Theorem first_row_header (table first_tr : node) :
  find (py "thead") table = None →
  find (py "tr") table = Some first_tr →
  is_Some (find (py "th") first_tr) →
  header_cells_of table = Some (find_all th_td first_tr)
  ∧ match find (py "tbody") table with
    | None =>
        find_all [py "tr"] table
        = first_tr :: body_rows_of table (header_cells_of table)
    | Some tbody =>
        body_rows_of table (header_cells_of table) = find_all [py "tr"] tbody
    end.
Proof.
  intros Hthead Htr [th Hth].
  assert (Hcells : header_cells_of table = Some (find_all th_td first_tr)).
  { unfold header_cells_of. rewrite Hthead, Htr, Hth.
    eapply or_none_nonempty, find_in_find_all; [|exact Hth].
    apply list_elem_of_here. }
  split; [done|]. unfold body_rows_of. rewrite Hcells.
  destruct (find (py "tbody") table); [done|].
  apply find_head in Htr as [more ->]. done.
Qed.

(** A table without sections whose first row holds a [th] cell. *)
Lemma first_row_header_plain :
  header_cells_of table_plain = Some (find_all th_td row_with_th)
  ∧ find_all [py "tr"] table_plain
    = row_with_th :: body_rows_of table_plain (header_cells_of table_plain).
Proof.
  apply (first_row_header table_plain row_with_th);
    [reflexivity | reflexivity | by eexists].
Defined.

(** C9, as stated, fails for a table with a [tbody]: the first row, with
    its [th] cell, is the header and a body row as well, and its address
    gets into the result. *)
Lemma header_row_inside_tbody_is_scanned :
  find (py "thead") table_tbody = None
  ∧ find (py "tr") table_tbody = Some row_with_th
  ∧ find (py "th") row_with_th = Some (tag "th" [Text telecom_marker])
  ∧ header_cells_of table_tbody = Some (find_all th_td row_with_th)
  ∧ body_rows_of table_tbody (header_cells_of table_tbody) = [row_with_th]
  ∧ @extract_telecom_ips sample_tables doc_tbody
    = Ok [Entry (py "1.2.3.4") 80 (py "10 MB/s")].
Proof. split_and!; vm_compute; reflexivity. Qed.

(** C10. In both modes an address is extracted only from an occurrence
    between word boundaries.  Every entry a column-mode row adds has a
    dotted quad as address that occurs in the text of the address cell
    with no word character (letter, digit, underscore) right before it
    and none right after it; every entry a fallback-mode row adds has one
    that occurs so in the row text; and every address of the result
    occurs so in a scanned text of a body row.  A quad of which every
    occurrence in the scanned text is glued to a word character on a side
    is not extracted from that text. *)
Theorem modes_extract_between_boundaries {U : Unicode} :
  (∀ i p s tr st, ∃ st' new,
      column_row i p s tr st = Ok (tt, st')
      ∧ results st' = results st ++ new
      ∧ (∀ e, e ∈ new →
           ∃ ip_cell,
             find_all td_th tr !! i = Some ip_cell
             ∧ dotted_quad (address e)
             ∧ free_standing (address e) (get_text (py " ") ip_cell))
      ∧ (∀ w ip_cell,
           find_all td_th tr !! i = Some ip_cell →
           glued w (get_text (py " ") ip_cell) →
           ∀ e, e ∈ new → address e ≠ w))
  ∧ (∀ tr st, ∃ st' new,
      fallback_row tr st = Ok (tt, st')
      ∧ results st' = results st ++ new
      ∧ (∀ e, e ∈ new →
           dotted_quad (address e)
           ∧ free_standing (address e)
               (join (py " ") (get_text [] <$> find_all td_th tr)))
      ∧ (∀ w,
           glued w (join (py " ") (get_text [] <$> find_all td_th tr)) →
           ∀ e, e ∈ new → address e ≠ w))
  ∧ (∀ soup, ∃ res,
      extract_telecom_ips soup = Ok res
      ∧ ∀ r, r ∈ res →
          ∃ table tr text,
            table ∈ find_all [py "table"] soup
            ∧ tr ∈ body_rows_of table (header_cells_of table)
            ∧ text ∈ scanned_texts tr
            ∧ free_standing (address r) text).
Proof.
  split_and!.
  - intros i p s tr st.
    destruct (absorb_appends (column_emits i p s tr) st) as (new & Hres & Hsub).
    exists (foldl absorb st (column_emits i p s tr)), new.
    split_and!; [apply column_row_emits | done | |].
    + intros e He. eapply elem_of_sublist in He; [|exact Hsub].
      by eapply column_emits_free.
    + intros w ic Hic Hglued e He <-.
      eapply elem_of_sublist in He; [|exact Hsub].
      apply column_emits_free in He as (ic' & Hic' & _ & Hfree).
      rewrite Hic in Hic'. injection Hic' as <-.
      by eapply free_standing_not_glued.
  - intros tr st.
    destruct (absorb_appends (fallback_emits tr) st) as (new & Hres & Hsub).
    exists (foldl absorb st (fallback_emits tr)), new.
    split_and!; [apply fallback_row_emits | done | |].
    + intros e He. eapply elem_of_sublist in He; [|exact Hsub].
      by apply fallback_emits_free.
    + intros w Hglued e He <-.
      eapply elem_of_sublist in He; [|exact Hsub].
      apply fallback_emits_free in He as [_ Hfree].
      by eapply free_standing_not_glued.
  - intros soup. exists (sort_reverse (discovered soup)).
    split; [apply extract_telecom_ips_spec|].
    intros r Hr. rewrite sort_reverse_perm in Hr.
    eapply elem_of_sublist in Hr; [|apply keep_first_sublist].
    by apply emissions_free.
Qed.

(** * Further properties of the code *)

(** X1. The two accumulators stay in step through the scan of a table:
    when [seen_ips] is the set of the addresses in [results], each of them
    there once, the scan returns (it does not raise), the same holds
    after it, and [results] has only grown at its end. *)
Theorem scan_keeps_accumulators {U : Unicode} (table : node) (st : state) :
  consistent st →
  ∃ st', scan_table table st = Ok (tt, st')
         ∧ consistent st'
         ∧ results st `prefix_of` results st'.
Proof.
  intros Hst. exists (foldl absorb st (table_emits table)). split_and!.
  - apply scan_table_emits.
  - by apply absorb_all_consistent.
  - apply absorb_all_prefix.
Qed.

(** A table without sections, scanned from the empty accumulators. *)
Lemma scan_keeps_accumulators_plain :
  ∃ st', @scan_table sample_tables table_plain st0 = Ok (tt, st')
         ∧ consistent st'
         ∧ results st0 `prefix_of` results st'.
Proof.
  apply (@scan_keeps_accumulators sample_tables table_plain st0).
  split; [reflexivity | constructor].
Defined.

(** X2. In column mode a row adds at most one entry to [results],
    whatever number of addresses its cells hold. *)
Theorem column_row_adds_at_most_one {U : Unicode} (i p s : nat) (tr : node) (st : state) :
  ∃ st' new,
    column_row i p s tr st = Ok (tt, st')
    ∧ results st' = results st ++ new
    ∧ (length new ≤ 1)%nat.
Proof.
  destruct (absorb_appends (column_emits i p s tr) st) as (new & Hres & Hsub).
  exists (foldl absorb st (column_emits i p s tr)), new.
  split_and!; [apply column_row_emits | done |].
  apply sublist_length in Hsub. etrans; [exact Hsub|].
  unfold column_emits. repeat case_match; simpl; lia.
Qed.


(** X4. Every returned address was read in the document: it is a piece of
    a scanned text (the row text, or a cell text) of a body row of some
    table, and a cell of that row holds the marker 电信. *)
Theorem addresses_come_from_marker_rows {U : Unicode} (soup : node) :
  ∃ res, extract_telecom_ips soup = Ok res
    ∧ ∀ r, r ∈ res →
        ∃ table tr,
          table ∈ find_all [py "table"] soup
          ∧ tr ∈ body_rows_of table (header_cells_of table)
          ∧ found_in tr r.
Proof.
  exists (sort_reverse (discovered soup)).
  split; [apply extract_telecom_ips_spec|].
  intros r Hr. rewrite sort_reverse_perm in Hr.
  eapply elem_of_sublist in Hr; [|apply keep_first_sublist].
  by apply emissions_found.
Qed.

(** X5. A speed that [_parse_speed_to_mbps] returns is never negative. *)
Theorem speed_never_negative {U : Unicode} (text : list N) :
  match _parse_speed_to_mbps text with
  | Ok (Some (q, d)) => (0 <= q)%Q
  | _ => True
  end.
Proof.
  unfold _parse_speed_to_mbps.
  destruct (re_search true speed_regex text) as [m|]; [|done].
  destruct (group m 1) as [g1|]; [|done]. destruct (group m 2) as [g2|]; [|done].
  destruct (py_float g1) as [v|] eqn:Hv; [|done]. apply py_float_nonneg in Hv.
  change (result_bind _ _ ?f (Ok ?a)) with (f a). cbn beta zeta.
  assert (H8 : (0 <= 8 # 1)%Q) by done.
  assert (H1000 : (0 <= 1000 # 1)%Q) by done.
  assert (Hinv : (0 <= / (1000 # 1))%Q) by done.
  repeat case_decide; try done; unfold Qdiv;
    repeat apply Qmult_le_0_compat; done.
Qed.

(** X6. A display that [_parse_speed_to_mbps] returns is not empty and
    holds, of the ASCII range, only digits, letters, the dot, the slash
    and the blank: no line break and no control character, whatever
    white space the text has between the number and the unit. *)
Theorem display_is_plain {U : Unicode} (text : list N) :
  match _parse_speed_to_mbps text with
  | Ok (Some (q, d)) =>
      d ≠ [] ∧ Forall display_char d ∧ (10 ∉ d) ∧ (13 ∉ d) ∧ (9 ∉ d)
  | _ => True
  end.
Proof.
  destruct (_parse_speed_to_mbps text) as [[[q d]|]|] eqn:Hp; try done.
  apply parse_display in Hp as [Hall Hne].
  split_and!; [done | done | | |]; by apply display_char_not.
Qed.

(** X7. A text without a decimal digit, the empty text among them, has
    no speed: the function returns [None] and does not raise. *)
Theorem no_digit_no_speed {U : Unicode} (text : list N) :
  Forall (fun c => isdecimal c = false) text →
  _parse_speed_to_mbps text = Ok None.
Proof.
  intros Hnone. unfold _parse_speed_to_mbps.
  destruct (re_search true speed_regex text) as [m|] eqn:Hs; [|done].
  apply speed_search in Hs as (b & num & ws & unit & a & -> & Hnum & _).
  assert (∃ c, c ∈ num ∧ isdecimal c = true) as (c & Hc & Hdec).
  { destruct Hnum as [Hnum | (i & f & -> & Hi & _)].
    - by apply digit_run_has_digit.
    - destruct (digit_run_has_digit i Hi) as (c & Hc & Hdec).
      exists c. split; [|done]. apply elem_of_app. by left. }
  apply Forall_app in Hnone as [_ Hnone]. apply Forall_app in Hnone as [Hnone _].
  eapply Forall_forall in Hnone; [|exact Hc]. congruence.
Qed.

(** The text "MB/s fast", a unit without a number. *)
Lemma no_digit_no_speed_unit_only :
  @_parse_speed_to_mbps sample_tables (py "MB/s fast") = Ok None.
Proof.
  apply (@no_digit_no_speed sample_tables (py "MB/s fast")).
  repeat constructor.
Defined.

(** X8. The columns found in a header lie inside the header row, so a
    body row with at least as many cells as the header row is never
    skipped for its width. *)
Theorem header_wide_rows_not_skipped {U : Unicode}
    (headers_text : list (list N)) (i p s : nat) (tds : list node) :
  classify_from (Columns None None None) 0 headers_text
  = Columns (Some i) (Some p) (Some s) →
  (length headers_text ≤ length tds)%nat →
  (i < length headers_text)%nat
  ∧ (p < length headers_text)%nat
  ∧ (s < length headers_text)%nat
  ∧ too_narrow i p s tds = false.
Proof.
  rewrite classify_from_spec. simpl. intros [= Hi Hp Hs] Hlen.
  apply first_from_bound in Hi, Hp, Hs. split_and!; try done.
  destruct (too_narrow i p s tds) eqn:Hw; [|done].
  apply too_narrow_spec in Hw. lia.
Qed.

(** The header [IP地址 | 线路 | 速度] and a row of three cells. *)
Lemma header_wide_rows_not_skipped_row3 :
  (0 < 3)%nat ∧ (1 < 3)%nat ∧ (2 < 3)%nat
  ∧ too_narrow 0 1 2 (find_all td_th row_unicom) = false.
Proof.
  apply (@header_wide_rows_not_skipped sample_tables
           [py "IP" ++ kw_address; kw_line; kw_speed] 0 1 2
           (find_all td_th row_unicom)).
  - reflexivity.
  - vm_compute. lia.
Defined.

(** X11. When [main] ends with code 0 it has printed one line per
    returned entry, in the order of the ranking, each the address, two
    blanks, [Cloudflare-] and the display; the text written to [dx.txt]
    is these lines, each followed by a line break.  The address of an
    entry is the text of its line up to the first blank, and no line is
    printed twice. *)
Theorem main_prints_the_ranking {U : Unicode} (get : request -> outcome response)
    (parse : list N -> node) (write : list N -> list N -> option (list N)) (r : run) :
  main get parse write = Ok r →
  exit_code r = 0%nat →
  ∃ html res,
    (fetch_html get TARGET_URL).2 = Returns html
    ∧ extract_telecom_ips (parse html) = Ok res
    ∧ res ≠ []
    ∧ printed r = format_line <$> res
    ∧ written r = [join newline (printed r) ++ newline]
    ∧ line_address <$> printed r = address <$> res
    ∧ NoDup (printed r).
Proof.
  rewrite main_run.
  destruct (fetch_html get TARGET_URL) as [reqs [html|e]];
    cbn [snd]; [|by intros [= <-]].
  destruct (returned_addresses (parse html)) as [Hnd Hvalid].
  pose proof (extract_telecom_ips_spec (parse html)) as Hx.
  cbn zeta. set (res := sort_reverse (discovered (parse html))) in *.
  destruct (nonempty res) eqn:Hne; cbn [negb]; [|by intros [= <-]].
  destruct (write (py "dx.txt") _) as [e|]; intros [= <-]; [done|]. intros _.
  cbn [printed written].
  assert (Haddr : line_address <$> (format_line <$> res) = address <$> res).
  { rewrite <- list_fmap_compose. apply Forall_fmap_ext.
    eapply Forall_impl; [exact Hvalid|]. intros e He. by apply line_address_format. }
  exists html, res. split_and!; try done.
  - intros Hnil. by rewrite Hnil in Hne.
  - apply (NoDup_fmap_1 line_address). by rewrite Haddr.
Qed.

(** The end-to-end scenario, fetched and written without failure. *)
Lemma main_prints_the_ranking_sample :
  ∃ html res,
    (fetch_html (page_ok (py "<html>")) TARGET_URL).2 = Returns html
    ∧ @extract_telecom_ips sample_tables doc_columns = Ok res
    ∧ res ≠ []
    ∧ printed sample_run = format_line <$> res
    ∧ written sample_run = [join newline (printed sample_run) ++ newline]
    ∧ line_address <$> printed sample_run = address <$> res
    ∧ NoDup (printed sample_run).
Proof.
  apply (@main_prints_the_ranking sample_tables (page_ok (py "<html>"))
           (fun _ => doc_columns) write_ok sample_run).
  - vm_compute. reflexivity.
  - reflexivity.
Defined.

(** X12. When [main] ends with code 0 and no printed line holds a line
    break, splitting the text written to [dx.txt] at the line breaks
    gives back the printed lines, followed by one empty piece for the
    final line break. *)
Theorem written_file_reads_back {U : Unicode} (get : request -> outcome response)
    (parse : list N -> node) (write : list N -> list N -> option (list N)) (r : run) :
  main get parse write = Ok r →
  exit_code r = 0%nat →
  Forall (fun line => 10 ∉ line) (printed r) →
  ∃ text, written r = [text] ∧ split_on 10 text = printed r ++ [[]].
Proof.
  rewrite main_run.
  destruct (fetch_html get TARGET_URL) as [reqs [html|e]]; [|by intros [= <-]].
  cbn zeta. set (res := sort_reverse (discovered (parse html))).
  destruct (nonempty res) eqn:Hne; cbn [negb]; [|by intros [= <-]].
  destruct (write (py "dx.txt") _) as [e|]; intros [= <-]; [done|]. intros _.
  cbn [printed written]. intros Hlines. eexists. split; [reflexivity|].
  apply split_lines; [|done]. destruct res; [done | done].
Qed.

(** The end-to-end scenario: two lines, then the empty piece. *)
Lemma written_file_reads_back_sample :
  ∃ text, written sample_run = [text]
          ∧ split_on 10 text = printed sample_run ++ [[]].
Proof.
  apply (@written_file_reads_back sample_tables (page_ok (py "<html>"))
           (fun _ => doc_columns) write_ok sample_run).
  - vm_compute. reflexivity.
  - reflexivity.
  - apply (bool_decide_eq_true_1
             (Forall (fun line : list N => 10 ∉ line) (printed sample_run))).
    vm_compute. reflexivity.
Defined.

(** X13. Scanning a table a second time changes nothing: after the scan
    every address the table yields is in [seen_ips], so the same rows add
    no entry again. *)
Theorem scan_twice_adds_nothing {U : Unicode} (table : node) (st : state) :
  ∃ st', scan_table table st = Ok (tt, st')
         ∧ scan_table table st' = Ok (tt, st').
Proof.
  exists (foldl absorb st (table_emits table)).
  split; [apply scan_table_emits|].
  rewrite scan_table_emits. do 2 f_equal.
  apply absorb_all_seen_again. intros e He. by apply absorb_all_sees.
Qed.
